(** * english_hash: word-encoded file digests

    A shallow embedding of [english_hash.py] (Python 2): the word encoder
    [key_to_english], the digest drivers [sha_file] and [sha_file_random],
    the orchestrator [wordhash], its wrapper [wordhash_file] and the script
    body [main], followed by the properties of the specification that
    concern them and by further properties read off the code.

    Conventions of the embedding.
    - Python integers are [Z]; [/] on two integers is floor division
      ([Z.div]), [%] is [Z.modulo], [<<], [>>], [&], [|] are the [Z] bit
      operations.
    - A Python 2 [str] of 8-bit characters is a [list byte].
    - An exception is a value of [exn]; a call returns [result A].  A
      raised exception ends the call: what it leaves behind in the shared
      objects is not modelled.
    - The [sha] object, the module-level generator of [random] and the
      file object are mutable and shared with the caller: they are threaded
      explicitly as the record [world].
    - [hashlib] and [random] are external; they appear as the interfaces
      [Digest] and [PRNG].  The vocabulary [wordlist] (a compressed blob in
      the source) is an argument. *)

From Stdlib Require Import ZArith QArith Qround List Lia Strings.Byte String Ascii DecimalString.
From stdpp Require Import base list numbers sorting strings.

Open Scope Z_scope.

(** ** Exceptions and results *)

Inductive exn : Type :=
| ValueError
| IndexError
| ZeroDivisionError
| TypeError
| IOError.

Inductive result (A : Type) : Type :=
| Ok (a : A)
| Raise (e : exn).

Arguments Ok {A} a.
Arguments Raise {A} e.

#[global] Instance result_ret : MRet result := @Ok.
#[global] Instance result_bind : MBind result :=
  λ A B f m, match m with Ok a => f a | Raise e => Raise e end.

Definition is_Ok {A} (r : result A) : Prop := ∃ a, r = Ok a.

(** ** Python primitives used by the program *)

Module Py.

(** [ord c] for an 8-bit character. *)
Definition ord (c : byte) : Z := Z.of_N (Byte.to_N c).

(** [a / b] on two integers (Python 2): floor division. *)
Definition floordiv (a b : Z) : result Z :=
  if b =? 0 then Raise ZeroDivisionError else Ok (a / b).

(** [int(x)] on a number: truncation towards zero. *)
Definition int (x : Q) : Z := Z.quot (Qnum x) (Z.pos (Qden x)).

(** [str(z)]: the decimal digits, with a leading minus sign if negative. *)
Definition str (z : Z) : list byte :=
  list_byte_of_string (NilZero.string_of_int (Z.to_int z)).

(** [l[i]]: a negative index counts from the end; out of range raises. *)
Definition index {A} (l : list A) (i : Z) : result A :=
  let j := if i <? 0 then i + Z.of_nat (length l) else i in
  if j <? 0 then Raise IndexError
  else match l !! Z.to_nat j with
       | Some x => Ok x
       | None => Raise IndexError
       end.

(** [l[0:k]]: a negative bound counts from the end. *)
Definition slice0 {A} (l : list A) (k : Z) : list A :=
  let j := if k <? 0 then Z.max 0 (k + Z.of_nat (length l)) else k in
  take (Z.to_nat j) l.

(** [sorted(l)] on integers. *)
Definition sorted (l : list Z) : list Z := merge_sort Z.le l.

(** [" ".join(ws)]. *)
Definition join_space (ws : list string) : string := String.concat " " ws.

End Py.

(** ** [key_to_english] *)

Section key_to_english.
Context {W : Type}.

(** The loop variables [out], [ix], [n]. *)
Record enc_state : Type := EncState {
  st_out : list W;
  st_ix : Z;
  st_n : Z
}.

(** [nbits = int(math.floor(math.log(len(words))/math.log(2)))].
    [math.log(0)] raises [ValueError].  The quotient of the two floating
    logarithms is taken as the exact base-2 logarithm, which it is for the
    4096-word vocabulary (the quotient is 12.0). *)
Definition nbits_of (words : list W) : result Z :=
  match words with
  | [] => Raise ValueError
  | _ => Ok (Z.log2 (Z.of_nat (length words)))
  end.

(** One iteration of [while byte != 0]: returns the shifted byte and the
    updated loop variables. *)
Definition while_body (words : list W) (nbits : Z) (byte : Z) (st : enc_state)
  : result (Z * enc_state) :=
  let ix := Z.shiftl (st_ix st) 1 in
  let ix := Z.lor ix (Z.land byte 1) in
  let byte := Z.shiftr byte 1 in
  let n := st_n st + 1 in
  if n =? nbits then
    w ← Py.index words ix;
    Ok (byte, EncState (st_out st ++ [w]) 0 0)
  else
    Ok (byte, EncState (st_out st) ix n).

(** [while byte != 0: ...], by recursion on a bound on the number of
    iterations. *)
Fixpoint while_fuel (fuel : nat) (words : list W) (nbits : Z) (byte : Z)
    (st : enc_state) : result enc_state :=
  if byte =? 0 then Ok st
  else match fuel with
       | O => Ok st
       | S fuel =>
           '(byte, st) ← while_body words nbits byte st;
           while_fuel fuel words nbits byte st
       end.

(** The number of binary digits of a non-negative integer: the loop on
    [byte] runs exactly that many times (see [while_byte_unfold]). *)
Definition bit_length (byte : Z) : Z :=
  if byte =? 0 then 0 else Z.log2 byte + 1.

Definition while_byte (words : list W) (nbits : Z) (byte : Z) (st : enc_state)
  : result enc_state :=
  while_fuel (Z.to_nat (bit_length byte)) words nbits byte st.

(** [for char in s: byte = ord(char); while ...]. *)
Fixpoint for_chars (words : list W) (nbits : Z) (s : list byte) (st : enc_state)
  : result enc_state :=
  match s with
  | [] => Ok st
  | char :: s =>
      st ← while_byte words nbits (Py.ord char) st;
      for_chars words nbits s st
  end.

Definition key_to_english (s : list byte) (words : list W) : result (list W) :=
  nbits ← nbits_of words;
  st ← for_chars words nbits s (EncState [] 0 0);
  if 0 <? st_n st then
    w ← Py.index words (st_ix st);
    Ok (st_out st ++ [w])
  else
    Ok (st_out st).

End key_to_english.

Arguments enc_state W : clear implicits.

(** The vocabulary whose [i]-th word is [i] itself: encoding with it lists
    the indices the encoder selects. *)
Definition index_vocabulary (N : nat) : list Z := seqZ 0 (Z.of_nat N).

(** ** External collaborators *)

(** The [sha] object: [update] and [digest] ([digest] does not reset). *)
Class Digest : Type := {
  sha_state : Type;
  sha_update : sha_state → list byte → sha_state;
  sha_digest : sha_state → list byte
}.

(** The module-level generator of [random]: [seed] replaces its state,
    [randint a b] draws from it and advances it.  ([randint] raises
    [ValueError] when [b < a]; the program calls it with [a = 0] and
    [b = max(0, _)] only.) *)
Class PRNG : Type := {
  rng_state : Type;
  rng_seed : list byte → rng_state;
  rng_randint : Z → Z → rng_state → Z * rng_state
}.

(** A file object opened for reading: its bytes and its position. *)
Record file : Type := File {
  f_content : list byte;
  f_pos : Z
}.

(** [f.seek(offset)]: a negative offset is refused by the operating
    system; an offset past the end is accepted. *)
Definition f_seek (offset : Z) (f : file) : result file :=
  if offset <? 0 then Raise IOError
  else Ok (File (f_content f) offset).

(** [f.read(size)]: at most [size] bytes from the position, the rest of
    the file when [size] is negative. *)
Definition f_read (size : Z) (f : file) : list byte * file :=
  let rest := drop (Z.to_nat (f_pos f)) (f_content f) in
  let data := if size <? 0 then rest else take (Z.to_nat size) rest in
  (data, File (f_content f) (f_pos f + Z.of_nat (length data))).

(** [os.fstat(f.fileno()).st_size]. *)
Definition fstat_size (f : file) : Z := Z.of_nat (length (f_content f)).

Section hashing.
Context `{D : Digest} `{G : PRNG}.

(** What a call can observe and mutate. *)
Record world : Type := World {
  w_sha : sha_state;
  w_rng : rng_state;
  w_file : file
}.

(** *** [sha_file] *)

(** [while read != '': read = f.read(1024*1024); sha.update(read)].  Each
    non-empty read advances the position, so the number of bytes left
    bounds the number of further iterations. *)
Fixpoint sha_file_loop (fuel : nat) (sha : sha_state) (f : file)
  : sha_state * file :=
  let '(read, f) := f_read (1024 * 1024) f in
  let sha := sha_update sha read in
  match read, fuel with
  | [], _ | _, O => (sha, f)
  | _ :: _, S fuel => sha_file_loop fuel sha f
  end.

Definition sha_file (w : world) : (list byte * list byte) * world :=
  let f := w_file w in
  let left := length (drop (Z.to_nat (f_pos f)) (f_content f)) in
  let '(sha, f) := sha_file_loop left (w_sha w) f in
  let hash := sha_digest sha in
  let sha := sha_update sha (sha_digest sha) in
  let hash2 := sha_digest sha in
  ((hash, hash2), World sha (w_rng w) f).

(** *** [sha_file_random] *)

(** Lines 291-297: the number of blocks to inspect.  [percent] is a
    Python float; arithmetic on it is exact here (a rational). *)
Definition n_blocks_of (size block_size : Z) (percent : option Q)
    (n_blocks min_blocks max_blocks : option Z) : result Z :=
  n_blocks ← match n_blocks with
             | None =>
                 q ← Py.floordiv size block_size;
                 match percent with
                 | None => Raise TypeError
                 | Some percent => Ok (Py.int ((inject_Z q * percent) / 100))
                 end
             | Some n_blocks => Ok n_blocks
             end;
  let n_blocks :=
    match min_blocks with
    | Some min_blocks => Z.max n_blocks min_blocks
    | None => n_blocks
    end in
  let n_blocks :=
    match max_blocks with
    | Some max_blocks => Z.min n_blocks max_blocks
    | None => n_blocks
    end in
  Ok n_blocks.

(** [[random.randint(a, b) for i in range(k)]], drawn in order from the
    generator state [g]. *)
Fixpoint randints (k : nat) (a b : Z) (g : rng_state) : list Z * rng_state :=
  match k with
  | O => ([], g)
  | S k =>
      let '(x, g) := rng_randint a b g in
      let '(xs, g) := randints k a b g in
      (x :: xs, g)
  end.

(** Lines 291-303: the sorted block offsets, and the generator state
    after the draws.  [range(n_blocks)] is empty for a negative count. *)
Definition block_offsets (size block_size : Z) (percent : option Q)
    (n_blocks min_blocks max_blocks : option Z) (g : rng_state)
  : result (list Z * rng_state) :=
  n_blocks ← n_blocks_of size block_size percent n_blocks min_blocks max_blocks;
  let '(draws, g) :=
    randints (Z.to_nat n_blocks) 0 (Z.max 0 (size - block_size)) g in
  let block_offsets := [0] ++ draws ++ [size - block_size] in
  Ok (Py.sorted block_offsets, g).

(** [for offset in block_offsets: f.seek(offset); sha.update(f.read(block_size))]. *)
Fixpoint read_blocks (offsets : list Z) (block_size : Z) (sha : sha_state)
    (f : file) : result (sha_state * file) :=
  match offsets with
  | [] => Ok (sha, f)
  | offset :: offsets =>
      f ← f_seek offset f;
      let '(data, f) := f_read block_size f in
      read_blocks offsets block_size (sha_update sha data) f
  end.

(** Every keyword is passed explicitly, [None] included, as the command
    line does; the signature's default [min_blocks=100] only applies to a
    caller that omits the keyword, who passes [Some 100] here. *)
Definition sha_file_random (w : world) (percent : option Q)
    (n_blocks min_blocks max_blocks block_size filesize : option Z)
  : result ((list byte * list byte) * world) :=
  let block_size := default 512 block_size in
  let f := w_file w in
  let size :=
    match filesize with
    | None => fstat_size f
    | Some filesize => filesize
    end in
  '(offsets, _) ←
    block_offsets size block_size percent n_blocks min_blocks max_blocks (w_rng w);
  let sha := sha_update (w_sha w) (Py.str size) in
  let g := rng_seed (sha_digest sha) in
  '(sha, f) ← read_blocks offsets block_size sha f;
  let hash := sha_digest sha in
  let sha := sha_update sha (sha_digest sha) in
  let hash2 := sha_digest sha in
  Ok ((hash, hash2), World sha g f).

(** *** [wordhash] *)

Definition word_bits : Z := 12.
Definition char_bits : Z := 8.

(** Lines 331-332. *)
Definition padding_bytes (hash : list byte) : Z :=
  let padding := word_bits - ((Z.of_nat (length hash) * char_bits) mod word_bits) in
  padding / char_bits.

(** The argument of [key_to_english] on line 333. *)
Definition encoder_input (hash hash2 : list byte) : list byte :=
  hash ++ Py.slice0 hash2 (padding_bytes hash).

(** Lines 329-335: the words of a digest pair, truncated to [n]. *)
Definition hash_words (wordlist : list string) (hash hash2 : list byte)
    (n : option Z) : result (list string) :=
  words ← key_to_english (encoder_input hash hash2) wordlist;
  match n with
  | Some n => Ok (Py.slice0 words n)
  | None => Ok words
  end.

Definition wordhash (wordlist : list string) (w : world) (n blocks : option Z)
    (percent : option Q) (min_blocks max_blocks block_size filesize : option Z)
  : result (string * world) :=
  '((hash, hash2), w) ←
    match blocks, percent with
    | None, None => Ok (sha_file w)
    | _, _ =>
        sha_file_random w percent blocks min_blocks max_blocks block_size filesize
    end;
  words ← hash_words wordlist hash hash2 n;
  Ok (Py.join_space words, w).

End hashing.

Arguments world D G : clear implicits.

(** ** [wordhash_file] and the command line *)

(** The parsed command line ([args] of [argparse]). *)
Record args : Type := Args {
  a_files : list string;
  a_nwords : option Z;
  a_percent : option Q;
  a_blocks : option Z;
  a_block_size : option Z;
  a_min_blocks : option Z;
  a_max_blocks : option Z
}.

Section command_line.
Context `{D : Digest} `{G : PRNG}.

(** What outlives a call of [wordhash_file]: the [sha] object and the
    generator.  The file object is closed on leaving the [with] block. *)
Record process : Type := Process {
  p_sha : sha_state;
  p_rng : rng_state
}.

(** [open(fname, "rb")] finds the bytes of the files that exist: [open_rb]
    gives them by path, and [None] for a path that cannot be opened. *)
Definition wordhash_file (open_rb : string → option (list byte))
    (wordlist : list string) (p : process) (fname : string) (n blocks : option Z)
    (percent : option Q) (min_blocks max_blocks block_size filesize : option Z)
  : result (string * process) :=
  match open_rb fname with
  | None => Raise IOError
  | Some content =>
      '(out, w) ←
        wordhash wordlist (World (p_sha p) (p_rng p) (File content 0))
          n blocks percent min_blocks max_blocks block_size filesize;
      Ok (out, Process (w_sha w) (w_rng w))
  end.

(** [for file in args.files: print wordhash_file(sha, file, ...)]: the
    lines printed, and the exception that ended the loop if one did. *)
Fixpoint main_loop (open_rb : string → option (list byte)) (wordlist : list string)
    (a : args) (n : Z) (p : process) (files : list string)
  : list string * option exn :=
  match files with
  | [] => ([], None)
  | file :: files =>
      match wordhash_file open_rb wordlist p file (Some n) (a_blocks a) (a_percent a)
              (a_min_blocks a) (a_max_blocks a) (a_block_size a) None with
      | Raise e => ([], Some e)
      | Ok (line, p) =>
          let '(lines, e) := main_loop open_rb wordlist a n p files in
          (line :: lines, e)
      end
  end.

(** The script body.  [sha] is the fresh [hashlib.sha512()] object, [g]
    the generator state at start-up, [argv0] is [sys.argv[0]] and [realpath]
    is [os.path.realpath]. *)
Definition main (open_rb : string → option (list byte)) (wordlist : list string)
    (sha : sha_state) (g : rng_state) (argv0 : string) (realpath : string → string)
    (a : args) : list string * option exn :=
  let n := default 12 (a_nwords a) in
  let p := Process sha g in
  match a_files a with
  | [] =>
      let thisfile := realpath argv0 in
      match wordhash_file open_rb wordlist p thisfile (Some n) (a_blocks a)
              (a_percent a) (a_min_blocks a) (a_max_blocks a) (a_block_size a) None with
      | Raise e => ([], Some e)
      | Ok (h, _) =>
          (["Hash of this script (" ++ argv0 ++ "):  " ++ h]%string, None)
      end
  | files => main_loop open_rb wordlist a n p files
  end.

End command_line.

Arguments process D G : clear implicits.

(** ** Stand-ins for the external collaborators

    Closed evaluations need some digest and some generator.  [transcript]
    is the digest that returns everything it was fed (no two transcripts
    collide); [lcg] is a linear congruential generator.  General statements
    below quantify over all instances of [Digest] and [PRNG]. *)

Module Standin.

Definition transcript : Digest :=
  {| sha_state := list byte;
     sha_update := λ st data, st ++ data;
     sha_digest := λ st, st |}.

Definition lcg_next (g : Z) : Z := (1103515245 * g + 12345) mod 2 ^ 31.

Definition lcg : PRNG :=
  {| rng_state := Z;
     rng_seed := λ seed, fold_left (λ g c, (256 * g + Py.ord c) mod 2 ^ 31) seed 0;
     rng_randint := λ a b g, (a + g mod (b - a + 1), lcg_next g) |}.

(** A file of [len] bytes whose [i]-th byte is [i mod 256]. *)
Definition ramp (len : nat) : list byte :=
  (λ i, default x00 (Byte.of_N (N.of_nat (i mod 256)))) <$> seq 0 len.

(** A vocabulary of 4096 distinct words: the decimal numerals. *)
Definition numerals : list string :=
  (λ i, NilZero.string_of_int (Z.to_int i)) <$> seqZ 0 4096.

End Standin.

(** ** Vocabulary of the statements *)

#[global] Instance result_fmap : FMap result :=
  λ A B f m, match m with Ok a => Ok (f a) | Raise e => Raise e end.

(** [ceil(a / b)] for a positive [b]. *)
Definition ceil_div (a b : Z) : Z := (a + b - 1) / b.

(** The bits [key_to_english] shifts in from [s]: for each character, the
    binary digits of its code up to the most significant set bit. *)
Definition consumed_bits (s : list byte) : Z :=
  foldr (λ c acc, bit_length (Py.ord c) + acc) 0 s.

(** The loop invariant of the encoder after [bits] bits were shifted in:
    [n] counts the bits of the group in progress and [ix] holds them. *)
Definition enc_inv {W} (nbits bits : Z) (st : enc_state W) : Prop :=
  0 ≤ st_n st < nbits ∧ 0 ≤ st_ix st < 2 ^ st_n st ∧
  Z.of_nat (length (st_out st)) * nbits + st_n st = bits.

(** What [random.randint] promises: a value between its two bounds. *)
Definition RandintInRange (G : PRNG) : Prop :=
  ∀ a b g, a ≤ b → a ≤ (rng_randint a b g).1 ≤ b.


(** The loop variables of a run over the vocabulary [f <$> words], given
    those of the run over [words]. *)
Definition map_state {A B} (f : A → B) (st : enc_state A) : enc_state B :=
  EncState (f <$> st_out st) (st_ix st) (st_n st).

(** The binary digits of [byte], least significant first, up to its most
    significant set bit. *)
Definition byte_bits (byte : Z) : list Z :=
  (λ i, Z.b2z (Z.testbit byte i)) <$> seqZ 0 (bit_length byte).

(** The digits of all characters of [s], in order. *)
Definition bit_stream (s : list byte) : list Z :=
  concat ((λ c, byte_bits (Py.ord c)) <$> s).

Definition is_bit (b : Z) : Prop := b = 0 ∨ b = 1.

(** The integer whose binary digits, most significant first, are [bits]. *)
Definition bits_value (bits : list Z) : Z :=
  fold_left (λ acc b, 2 * acc + b) bits 0.

(** The effect of one loop iteration on the loop variables, as a function
    of the bit [b = byte & 1] it shifts in. *)
Definition feed_bit {W} (words : list W) (nbits : Z) (b : Z) (st : enc_state W)
  : result (enc_state W) :=
  let ix := Z.lor (Z.shiftl (st_ix st) 1) b in
  let n := st_n st + 1 in
  if n =? nbits then
    w ← Py.index words ix;
    Ok (EncState (st_out st ++ [w]) 0 0)
  else
    Ok (EncState (st_out st) ix n).

Fixpoint feed_bits {W} (words : list W) (nbits : Z) (bits : list Z)
    (st : enc_state W) : result (enc_state W) :=
  match bits with
  | [] => Ok st
  | b :: bits => st ← feed_bit words nbits b st; feed_bits words nbits bits st
  end.

(** The words returned once the bits are consumed (lines 250-253). *)
Definition trailing_word {W} (words : list W) (st : enc_state W) : result (list W) :=
  if 0 <? st_n st then
    w ← Py.index words (st_ix st);
    Ok (st_out st ++ [w])
  else
    Ok (st_out st).

(** The loop variables after the bits [bits]: the complete groups of
    [nbits] bits have each selected a word, the incomplete one is held in
    [ix] and counted by [n]. *)
Definition grouped {W} (words : list W) (nbits : Z) (bits : list Z)
    (st : enc_state W) : Prop :=
  ∃ groups partial,
    bits = concat groups ++ partial
    ∧ Forall (λ g, Z.of_nat (length g) = nbits) groups
    ∧ Forall2 (λ g w, words !! Z.to_nat (bits_value g) = Some w) groups (st_out st)
    ∧ st_ix st = bits_value partial
    ∧ st_n st = Z.of_nat (length partial)
    ∧ st_n st < nbits.

(** The groups that select a word: the complete ones, then the incomplete
    one if it holds a bit. *)
Definition selecting_groups (full : list (list Z)) (partial : list Z) : list (list Z) :=
  match partial with
  | [] => full
  | _ :: _ => full ++ [partial]
  end.

(** The loop variables of a run that started with the words [pre] already
    in [out]. *)
Definition prepend_out {W} (pre : list W) (st : enc_state W) : enc_state W :=
  EncState (pre ++ st_out st) (st_ix st) (st_n st).

(** A digest that streams: feeding two strings one after the other is
    feeding their concatenation, and feeding nothing changes nothing. *)
Definition DigestStreams (D : Digest) : Prop :=
  (∀ st a b, sha_update (sha_update st a) b = sha_update st (a ++ b))
  ∧ (∀ st, sha_update st [] = st).

(** A directory for closed evaluations: two files, [a] of 3 bytes and [b]
    of 5 bytes. *)
Definition two_files (fname : string) : option (list byte) :=
  if String.eqb fname "a" then Some (Standin.ramp 3)
  else if String.eqb fname "b" then Some (Standin.ramp 5)
  else None.

(** * Properties *)

(** ** The encoder loops *)

Section encoder_facts.
Context {W : Type}.
Implicit Types (words : list W) (st : enc_state W) (s : list byte).

Lemma ord_range (c : byte) : 0 ≤ Py.ord c < 256.
Proof.
  unfold Py.ord. pose proof (Byte.to_N_bounded c) as Hc. lia.
Qed.

Lemma bit_length_nonneg byte : 0 ≤ bit_length byte.
Proof.
  unfold bit_length. destruct (Z.eqb_spec byte 0); [lia|].
  pose proof (Z.log2_nonneg byte). lia.
Qed.

Lemma bit_length_shiftr byte :
  0 < byte → bit_length (Z.shiftr byte 1) = bit_length byte - 1.
Proof.
  intros Hb. unfold bit_length.
  destruct (Z.eqb_spec byte 0) as [|_]; [lia|].
  pose proof (Z.log2_shiftr byte 1 Hb) as Hlog.
  pose proof (Z.log2_nonneg byte) as Hnn.
  destruct (Z.eqb_spec (Z.shiftr byte 1) 0) as [H0|H0].
  - apply Z.shiftr_eq_0_iff in H0 as [?|[_ H0]]; lia.
  - destruct (decide (Z.log2 byte = 0)) as [Hz|Hz]; [|lia].
    exfalso. apply H0, Z.shiftr_eq_0_iff. right. lia.
Qed.

(** The bounded recursion is the Python loop: [while byte != 0: body]. *)
Lemma while_byte_unfold words nbits byte st :
  0 ≤ byte →
  while_byte words nbits byte st =
    if byte =? 0 then Ok st
    else '(byte, st) ← while_body words nbits byte st;
         while_byte words nbits byte st.
Proof.
  intros Hb. unfold while_byte at 1.
  destruct (Z.eqb_spec byte 0) as [->|Hne]; [reflexivity|].
  assert (Z.to_nat (bit_length byte) = S (Z.to_nat (bit_length (Z.shiftr byte 1)))) as ->.
  { rewrite bit_length_shiftr by lia.
    assert (1 ≤ bit_length byte); [|lia].
    unfold bit_length. destruct (Z.eqb_spec byte 0); [lia|].
    pose proof (Z.log2_nonneg byte). lia. }
  simpl. destruct (Z.eqb_spec byte 0); [lia|].
  unfold while_body. simpl.
  destruct (st_n st + 1 =? nbits); [|reflexivity].
  destruct (Py.index words _); reflexivity.
Qed.

Lemma lor_shiftl_bit ix byte :
  0 ≤ ix → Z.lor (Z.shiftl ix 1) (Z.land byte 1) = 2 * ix + Z.land byte 1
           ∧ 0 ≤ Z.land byte 1 ≤ 1.
Proof.
  intros Hix.
  assert (Z.land byte 1 = 0 ∨ Z.land byte 1 = 1) as Hbit.
  { pose proof (Z.land_ones byte 1) as Hones.
    change (Z.ones 1) with 1 in Hones. change (2 ^ 1) with 2 in Hones.
    pose proof (Z.mod_pos_bound byte 2). lia. }
  rewrite Z.shiftl_mul_pow2 by lia. change (2 ^ 1) with 2.
  destruct Hbit as [->| ->]; (split; [|lia]).
  - rewrite Z.lor_0_r. lia.
  - destruct ix as [|p|p]; [reflexivity| |lia].
    rewrite Z.mul_comm. reflexivity.
Qed.

Lemma index_in_range words i :
  0 ≤ i < Z.of_nat (length words) →
  ∃ w, Py.index words i = Ok w ∧ words !! Z.to_nat i = Some w.
Proof.
  intros Hi. unfold Py.index.
  assert ((i <? 0) = false) as Hneg by lia. rewrite Hneg. cbv zeta. rewrite Hneg.
  destruct (lookup_lt_is_Some_2 words (Z.to_nat i)) as [w Hw]; [lia|].
  rewrite Hw. eauto.
Qed.

Section invariant.
Variables (words : list W) (nbits : Z) (P : W → Prop).
Hypothesis Hwords : 2 ^ nbits ≤ Z.of_nat (length words).
Hypothesis HP :
  ∀ i w, 0 ≤ i < 2 ^ nbits → words !! Z.to_nat i = Some w → P w.

Lemma while_body_inv bits byte st :
  enc_inv nbits bits st → Forall P (st_out st) →
  ∃ st', while_body words nbits byte st = Ok (Z.shiftr byte 1, st')
         ∧ enc_inv nbits (bits + 1) st' ∧ Forall P (st_out st').
Proof.
  intros (Hn & Hix & Hlen) Hout. unfold while_body.
  destruct (lor_shiftl_bit (st_ix st) byte) as [-> Hbit]; [lia|].
  assert (2 * st_ix st + Z.land byte 1 < 2 ^ (st_n st + 1)) as Hlt.
  { rewrite Z.pow_add_r, Z.pow_1_r by lia. lia. }
  destruct (Z.eqb_spec (st_n st + 1) nbits) as [Heq|Hne].
  - destruct (index_in_range words (2 * st_ix st + Z.land byte 1)) as (w & -> & Hw).
    { rewrite Heq in Hlt. lia. }
    eexists. split; [reflexivity|]. split.
    + unfold enc_inv. simpl. rewrite length_app. simpl. lia.
    + simpl. apply Forall_app. split; [done|]. apply Forall_singleton.
      eapply HP; [|done]. rewrite Heq in Hlt. lia.
  - eexists. split; [reflexivity|]. split; [|done].
    unfold enc_inv. simpl. lia.
Qed.

Lemma while_fuel_inv fuel : ∀ bits byte st,
  0 ≤ byte → bit_length byte ≤ Z.of_nat fuel →
  enc_inv nbits bits st → Forall P (st_out st) →
  ∃ st', while_fuel fuel words nbits byte st = Ok st'
         ∧ enc_inv nbits (bits + bit_length byte) st' ∧ Forall P (st_out st').
Proof.
  induction fuel as [|fuel IH]; intros bits byte st Hb Hfuel Hinv Hout.
  - assert (byte = 0) as ->.
    { unfold bit_length in Hfuel. destruct (Z.eqb_spec byte 0); [done|].
      pose proof (Z.log2_nonneg byte). lia. }
    exists st. simpl. rewrite Z.add_0_r. done.
  - simpl. destruct (Z.eqb_spec byte 0) as [->|Hne].
    { exists st. simpl. rewrite Z.add_0_r. done. }
    destruct (while_body_inv bits byte st Hinv Hout) as (st1 & -> & Hinv1 & Hout1).
    simpl.
    destruct (IH (bits + 1) (Z.shiftr byte 1) st1) as (st2 & -> & Hinv2 & Hout2);
      [apply Z.shiftr_nonneg; lia| rewrite bit_length_shiftr by lia; lia|done..|].
    exists st2. rewrite bit_length_shiftr in Hinv2 by lia.
    replace (bits + bit_length byte) with (bits + 1 + (bit_length byte - 1)) by lia.
    done.
Qed.

Lemma while_byte_inv bits byte st :
  0 ≤ byte → enc_inv nbits bits st → Forall P (st_out st) →
  ∃ st', while_byte words nbits byte st = Ok st'
         ∧ enc_inv nbits (bits + bit_length byte) st' ∧ Forall P (st_out st').
Proof.
  intros Hb. apply while_fuel_inv; [done|].
  pose proof (bit_length_nonneg byte). lia.
Qed.

Lemma for_chars_inv s : ∀ bits st,
  enc_inv nbits bits st → Forall P (st_out st) →
  ∃ st', for_chars words nbits s st = Ok st'
         ∧ enc_inv nbits (bits + consumed_bits s) st' ∧ Forall P (st_out st').
Proof.
  induction s as [|c s IH]; intros bits st Hinv Hout.
  - exists st. simpl. rewrite Z.add_0_r. done.
  - simpl.
    destruct (while_byte_inv bits (Py.ord c) st) as (st1 & -> & Hinv1 & Hout1);
      [apply ord_range|done..|].
    simpl. destruct (IH _ st1 Hinv1 Hout1) as (st2 & -> & Hinv2 & Hout2).
    exists st2. rewrite Z.add_assoc. done.
Qed.

End invariant.

Lemma ceil_div_spec q r b :
  0 ≤ r < b → ceil_div (q * b + r) b = if 0 <? r then q + 1 else q.
Proof.
  intros Hr. unfold ceil_div.
  destruct (Z.ltb_spec 0 r).
  - symmetry. apply (Z.div_unique _ _ _ (r - 1)); lia.
  - assert (r = 0) as -> by lia. symmetry.
    apply (Z.div_unique _ _ _ (b - 1)); lia.
Qed.

(** With at least two words the encoder returns, every word it returns
    satisfies whatever holds of the words below index [2 ^ nbits], and the
    number of words is the number of [nbits]-bit groups, rounded up, in the
    bits it consumed. *)
Lemma key_to_english_total (P : W → Prop) s words :
  (2 ≤ length words)%nat →
  let nbits := Z.log2 (Z.of_nat (length words)) in
  (∀ i w, 0 ≤ i < 2 ^ nbits → words !! Z.to_nat i = Some w → P w) →
  ∃ out, key_to_english s words = Ok out ∧ Forall P out
         ∧ Z.of_nat (length out) = ceil_div (consumed_bits s) nbits.
Proof.
  intros HN nbits HP. unfold key_to_english.
  assert (nbits_of words = Ok nbits) as ->.
  { destruct words; [simpl in HN; lia|reflexivity]. }
  simpl.
  assert (1 ≤ nbits) as Hnb.
  { subst nbits. apply (Z.log2_le_mono 2). lia. }
  assert (2 ^ nbits ≤ Z.of_nat (length words)) as Hpow.
  { subst nbits. apply Z.log2_spec. lia. }
  destruct (for_chars_inv words nbits P Hpow HP s 0 (EncState [] 0 0))
    as (st & -> & (Hn & Hix & Hlen) & Hout); [unfold enc_inv; simpl; lia|done|].
  simpl. rewrite Z.add_0_l in Hlen. rewrite <- Hlen.
  rewrite ceil_div_spec by done.
  destruct (Z.ltb_spec 0 (st_n st)) as [Hpos|Hzero].
  - destruct (index_in_range words (st_ix st)) as (w & -> & Hw).
    { assert (2 ^ st_n st ≤ 2 ^ nbits) by (apply Z.pow_le_mono_r; lia). lia. }
    exists (st_out st ++ [w]). simpl. split; [done|]. split.
    + apply Forall_app. split; [done|]. apply Forall_singleton.
      eapply HP; [|done].
      assert (2 ^ st_n st ≤ 2 ^ nbits) by (apply Z.pow_le_mono_r; lia). lia.
    + rewrite length_app. simpl. lia.
  - exists (st_out st). done.
Qed.

End encoder_facts.

(** *** The encoder commutes with renaming the words *)

Section renaming.
Context {A B : Type} (f : A → B).

Lemma index_fmap (l : list A) i : Py.index (f <$> l) i = f <$> Py.index l i.
Proof.
  unfold Py.index. rewrite length_fmap. cbv zeta.
  destruct (_ <? 0); [reflexivity|].
  rewrite list_lookup_fmap. destruct (l !! _); reflexivity.
Qed.

Lemma while_body_fmap (words : list A) nbits byte st :
  while_body (f <$> words) nbits byte (map_state f st)
  = prod_map id (map_state f) <$> while_body words nbits byte st.
Proof.
  unfold while_body. simpl. destruct (_ =? nbits); [|reflexivity].
  rewrite index_fmap. destruct (Py.index words _); [|reflexivity].
  simpl. unfold map_state. simpl. rewrite fmap_app. reflexivity.
Qed.

Lemma while_fuel_fmap fuel : ∀ (words : list A) nbits byte st,
  while_fuel fuel (f <$> words) nbits byte (map_state f st)
  = map_state f <$> while_fuel fuel words nbits byte st.
Proof.
  induction fuel as [|fuel IH]; intros words nbits byte st; simpl.
  - destruct (byte =? 0); reflexivity.
  - destruct (byte =? 0); [reflexivity|].
    rewrite while_body_fmap.
    destruct (while_body words nbits byte st) as [[byte' st']|]; [|reflexivity].
    simpl. apply IH.
Qed.

Lemma for_chars_fmap s : ∀ (words : list A) nbits st,
  for_chars (f <$> words) nbits s (map_state f st)
  = map_state f <$> for_chars words nbits s st.
Proof.
  induction s as [|c s IH]; intros words nbits st; simpl; [reflexivity|].
  unfold while_byte. rewrite while_fuel_fmap.
  destruct (while_fuel _ words nbits _ st) as [st'|]; [|reflexivity].
  simpl. apply IH.
Qed.

Lemma key_to_english_fmap s (words : list A) :
  key_to_english s (f <$> words) = fmap (M:=list) f <$> key_to_english s words.
Proof.
  unfold key_to_english.
  assert (nbits_of (f <$> words) = nbits_of words) as ->.
  { unfold nbits_of. rewrite length_fmap. destruct words; reflexivity. }
  destruct (nbits_of words) as [nbits|]; [|reflexivity]. simpl.
  change (EncState (W:=B) [] 0 0) with (map_state f (EncState [] 0 0)).
  rewrite for_chars_fmap.
  destruct (for_chars words nbits s _) as [st|]; [|reflexivity]. simpl.
  destruct (0 <? st_n st); [|reflexivity].
  rewrite index_fmap. destruct (Py.index words _); [|reflexivity].
  simpl. rewrite fmap_app. reflexivity.
Qed.

End renaming.

Lemma index_vocabulary_length N : length (index_vocabulary N) = N.
Proof. unfold index_vocabulary. rewrite length_seqZ. lia. Qed.

Lemma index_vocabulary_lookup N i w :
  index_vocabulary N !! Z.to_nat i = Some w → 0 ≤ i → w = i.
Proof.
  unfold index_vocabulary. intros Hw Hi.
  apply lookup_seqZ in Hw as [-> _]. lia.
Qed.

(** Every vocabulary is a renaming of the index vocabulary of its length. *)
Lemma vocabulary_as_renaming {W} (d : W) (words : list W) :
  words = (λ i, default d (words !! Z.to_nat i)) <$> index_vocabulary (length words).
Proof.
  apply list_eq. intros k. unfold index_vocabulary.
  rewrite list_lookup_fmap.
  destruct (words !! k) as [w|] eqn:Hk.
  - rewrite (lookup_seqZ_lt _ _ k) by (apply lookup_lt_Some in Hk; lia).
    simpl. rewrite Z.add_0_l, Nat2Z.id, Hk. reflexivity.
  - rewrite lookup_seqZ_ge; [done|]. apply lookup_ge_None in Hk. lia.
Qed.

(** *** Number of words *)

Lemma consumed_bits_le s : 0 ≤ consumed_bits s ≤ 8 * Z.of_nat (length s).
Proof.
  induction s as [|c s IH]; simpl; [lia|].
  pose proof (ord_range c) as Hc. pose proof (bit_length_nonneg (Py.ord c)).
  assert (bit_length (Py.ord c) ≤ 8); [|lia].
  unfold bit_length. destruct (Z.eqb_spec (Py.ord c) 0); [lia|].
  assert (Z.log2 (Py.ord c) < 8); [|lia].
  apply Z.log2_lt_pow2; lia.
Qed.

(** For a vocabulary of 4096 words the encoder returns one word per
    started group of 12 consumed bits; the bits consumed are those of
    [consumed_bits], at most 8 per character. *)
Lemma key_to_english_length {W} s (words : list W) :
  length words = 4096%nat →
  ∃ out, key_to_english s words = Ok out
         ∧ Z.of_nat (length out) = ceil_div (consumed_bits s) 12.
Proof.
  intros HN.
  destruct (key_to_english_total (λ _, True) s words) as (out & Hout & _ & Hlen);
    [lia|done|].
  exists out. split; [done|]. rewrite Hlen, HN. reflexivity.
Qed.

(** C3 (the encoder takes 8 bits of every byte, hence returns
    [ceil(len(s)*8/12)] words): the loop [while byte != 0] stops at the most
    significant set bit.  On the three bytes 01 01 01 it shifts in three
    bits and returns the single word of index 7, where 8 bits per byte
    would make [ceil(24/12) = 2] words. *)
Theorem key_to_english_stops_at_top_bit :
  key_to_english [x01; x01; x01] (index_vocabulary 4096) = Ok [7]
  ∧ consumed_bits [x01; x01; x01] = 3
  ∧ ceil_div (Z.of_nat (length [x01; x01; x01]) * 8) 12 = 2.
Proof. vm_compute. auto. Qed.

(** *** Indexing stays in bounds *)

(** C10, as amended (a vocabulary of at least two words): the indices the
    encoder selects, read off the run over the index vocabulary, are all
    below [2 ^ floor(log2 N)], hence below [N]; the run over [words] returns
    the words at exactly these indices, so no lookup fails. *)
Theorem key_to_english_index_in_bounds {W} (s : list byte) (words : list W) :
  (2 ≤ length words)%nat →
  ∃ ixs out,
    key_to_english s (index_vocabulary (length words)) = Ok ixs
    ∧ Forall (λ i, 0 ≤ i < 2 ^ Z.log2 (Z.of_nat (length words))
                   ∧ i < Z.of_nat (length words)) ixs
    ∧ key_to_english s words = Ok out
    ∧ Forall2 (λ i w, words !! Z.to_nat i = Some w) ixs out.
Proof.
  intros HN. set (N := length words).
  assert (2 ^ Z.log2 (Z.of_nat N) ≤ Z.of_nat N) as Hpow by (apply Z.log2_spec; lia).
  destruct (key_to_english_total
              (λ i, 0 ≤ i < 2 ^ Z.log2 (Z.of_nat N) ∧ i < Z.of_nat N)
              s (index_vocabulary N)) as (ixs & Hixs & Hbound & _).
  { rewrite index_vocabulary_length. done. }
  { rewrite index_vocabulary_length. intros i w Hi Hw.
    apply index_vocabulary_lookup in Hw as ->; lia. }
  destruct (lookup_lt_is_Some_2 words 0) as [d _]; [lia|].
  exists ixs, ((λ i, default d (words !! Z.to_nat i)) <$> ixs).
  split; [done|]. split; [done|]. split.
  - rewrite (vocabulary_as_renaming d words) at 1.
    rewrite key_to_english_fmap. fold N. rewrite Hixs. reflexivity.
  - apply Forall2_fmap_r, Forall_Forall2_diag.
    eapply Forall_impl; [exact Hbound|]. intros i [Hi HiN]. simpl.
    destruct (lookup_lt_is_Some_2 words (Z.to_nat i)) as [w Hw]; [fold N; lia|].
    rewrite Hw. reflexivity.
Qed.

Lemma key_to_english_index_in_bounds_witness :
  ∃ ixs out,
    key_to_english [xa5; x0f; x80] (index_vocabulary 4) = Ok ixs
    ∧ Forall (λ i, 0 ≤ i < 2 ^ Z.log2 4 ∧ i < 4) ixs
    ∧ key_to_english [xa5; x0f; x80] [10; 20; 30; 40] = Ok out
    ∧ Forall2 (λ i w, [10; 20; 30; 40] !! Z.to_nat i = Some w) ixs out.
Proof.
  apply (key_to_english_index_in_bounds [xa5; x0f; x80] [10; 20; 30; 40]).
  simpl. lia.
Defined.

(** C10 as stated (every vocabulary of at least one word): with a single
    word [nbits] is 0, the group counter never equals it, and the trailing
    lookup uses every bit read so far as the index.  On the byte 01 that
    index is 1, past the end of a one-word vocabulary. *)
Lemma key_to_english_one_word_out_of_bounds :
  (1 ≤ length (index_vocabulary 1))%nat
  ∧ nbits_of (index_vocabulary 1) = Ok 0
  ∧ key_to_english [x01] (index_vocabulary 1) = Raise IndexError.
Proof. split; [simpl; lia|]. split; reflexivity. Qed.

(** ** The block sampler *)

(** *** Number of blocks *)







(** *** Offsets *)

Section sampler_facts.
Context `{G : PRNG}.

Lemma randints_length k a b g : length (randints k a b g).1 = k.
Proof.
  revert g. induction k as [|k IH]; intros g; simpl; [reflexivity|].
  destruct (rng_randint a b g) as [x g1]. specialize (IH g1).
  destruct (randints k a b g1) as [xs g2]. simpl in *. lia.
Qed.

Lemma randints_range k a b g :
  RandintInRange G → a ≤ b → Forall (λ x, a ≤ x ≤ b) (randints k a b g).1.
Proof.
  intros HG Hab. revert g. induction k as [|k IH]; intros g; simpl; [constructor|].
  pose proof (HG a b g Hab) as Hx.
  destruct (rng_randint a b g) as [x g1]. specialize (IH g1).
  destruct (randints k a b g1) as [xs g2]. simpl in *. constructor; done.
Qed.

Lemma sorted_Permutation l : Py.sorted l ≡ₚ l.
Proof. apply merge_sort_Permutation. Qed.

Lemma sorted_Sorted l : Sorted Z.le (Py.sorted l).
Proof. apply (Sorted_merge_sort Z.le). Qed.

(** Lines 291-303 read backwards: what a returned offset list is. *)
Lemma block_offsets_inv size block_size percent n_blocks min_blocks max_blocks g offs g' :
  block_offsets size block_size percent n_blocks min_blocks max_blocks g = Ok (offs, g') →
  ∃ k, n_blocks_of size block_size percent n_blocks min_blocks max_blocks = Ok k
       ∧ let draws := randints (Z.to_nat k) 0 (Z.max 0 (size - block_size)) g in
         offs = Py.sorted ([0] ++ draws.1 ++ [size - block_size]) ∧ g' = draws.2.
Proof.
  unfold block_offsets. intros H.
  destruct (n_blocks_of _ _ _ _ _ _) as [k|]; [|discriminate]. simpl in H.
  exists k. split; [reflexivity|].
  destruct (randints _ _ _ g) as [draws g1]. simpl. by inversion H.
Qed.

(** With the count given, the offsets are always produced. *)
Lemma block_offsets_count_total size block_size percent k min_blocks max_blocks g :
  is_Ok (block_offsets size block_size percent (Some k) min_blocks max_blocks g).
Proof.
  unfold block_offsets, n_blocks_of. simpl.
  destruct (randints _ _ _ g) as [draws g1]. eexists. reflexivity.
Qed.

(** C9: whenever the offsets are produced, both [0] and
    [file_size - block_size] are among them, whatever the clamped count;
    with a count of 0, a minimum of 0, no maximum, a size of 10000 and
    blocks of 512 bytes they are exactly [0] and [9488]. *)
Theorem block_offsets_first_and_last
    size block_size percent n_blocks min_blocks max_blocks g offs g' :
  block_offsets size block_size percent n_blocks min_blocks max_blocks g = Ok (offs, g') →
  (0 ∈ offs ∧ size - block_size ∈ offs)
  ∧ ∀ g0, block_offsets 10000 512 None (Some 0) (Some 0) None g0 = Ok ([0; 9488], g0).
Proof.
  intros H. split; [|reflexivity].
  apply block_offsets_inv in H as (k & _ & -> & _).
  rewrite !sorted_Permutation. simpl.
  rewrite !elem_of_cons, !elem_of_app, !list_elem_of_singleton. auto.
Qed.

(** Where the file holds at least one block, every offset lies between 0
    and [file_size - block_size]. *)
Lemma block_offsets_in_range
    size block_size percent n_blocks min_blocks max_blocks g offs g' :
  RandintInRange G → block_size ≤ size →
  block_offsets size block_size percent n_blocks min_blocks max_blocks g = Ok (offs, g') →
  Forall (λ o, 0 ≤ o ≤ size - block_size) offs.
Proof.
  intros HG Hsize H. apply block_offsets_inv in H as (k & _ & -> & _).
  rewrite sorted_Permutation. simpl.
  constructor; [lia|]. apply Forall_app. split.
  - eapply Forall_impl; [apply randints_range; [done|lia]|]. simpl. lia.
  - apply Forall_singleton. lia.
Qed.

End sampler_facts.

Lemma block_offsets_first_and_last_witness :
  (0 ∈ [0; 7; 4830; 4947; 9488] ∧ 10000 - 512 ∈ [0; 7; 4830; 4947; 9488])
  ∧ ∀ g0, block_offsets (G:=Standin.lcg) 10000 512 None (Some 0) (Some 0) None g0
          = Ok ([0; 9488], g0).
Proof.
  apply (block_offsets_first_and_last (G:=Standin.lcg)
           10000 512 None (Some 3) (Some 0) None 7
           [0; 7; 4830; 4947; 9488] 712265938).
  reflexivity.
Defined.

(** C5 (every offset is between 0 and [max(0, file_size - block_size)]; the
    last one is clamped): the bound of [randint] is clamped with [max], the
    appended last offset is not.  For a file of 100 bytes and blocks of 512
    the offsets are [-412] and [0], and the seek to [-412] fails. *)
Theorem block_offsets_last_offset_negative `{D : Digest} `{G : PRNG} (w : world D G) :
  block_offsets 100 512 None (Some 0) (Some 0) None (w_rng w) = Ok ([-412; 0], w_rng w)
  ∧ sha_file_random w None (Some 0) (Some 0) None (Some 512) (Some 100) = Raise IOError.
Proof. split; reflexivity. Qed.

(** ** The sampled digest *)

Section digest_facts.
Context `{D : Digest} `{G : PRNG}.


(** [sha_file_random] read backwards.  The offsets come from the generator
    state found on entry; the state seeded from the digest of the size
    string is only left behind in the world. *)
Lemma sha_file_random_inv (w w' : world D G) percent n_blocks min_blocks max_blocks
    block_size filesize hashes :
  sha_file_random w percent n_blocks min_blocks max_blocks block_size filesize
    = Ok (hashes, w') →
  let bs := default 512 block_size in
  let size := default (fstat_size (w_file w)) filesize in
  let sha0 := sha_update (w_sha w) (Py.str size) in
  ∃ offs g1 sha1,
    block_offsets size bs percent n_blocks min_blocks max_blocks (w_rng w) = Ok (offs, g1)
    ∧ read_blocks offs bs sha0 (w_file w) = Ok (sha1, w_file w')
    ∧ w_rng w' = rng_seed (sha_digest sha0)
    ∧ w_sha w' = sha_update sha1 (sha_digest sha1)
    ∧ hashes = (sha_digest sha1, sha_digest (w_sha w')).
Proof.
  unfold sha_file_random. intros H.
  assert (match filesize with None => fstat_size (w_file w) | Some s => s end
          = default (fstat_size (w_file w)) filesize) as Hsize by (by destruct filesize).
  rewrite Hsize in H. cbv zeta.
  destruct (block_offsets _ _ _ _ _ _ _) as [[offs g1]|] eqn:Hoffs; [|discriminate].
  simpl in H.
  destruct (read_blocks _ _ _ _) as [[sha1 f1]|] eqn:Hread; [|discriminate].
  simpl in H. inversion H; subst. simpl.
  exists offs, g1, sha1. done.
Qed.



Lemma f_read_chunk content p :
  f_read (1024 * 1024) (File content p)
  = let data := take (Z.to_nat (1024 * 1024)) (drop (Z.to_nat p) content) in
    (data, File content (p + Z.of_nat (length data))).
Proof. reflexivity. Qed.

(** At the end of the file the loop feeds one empty read and stops. *)
Lemma sha_file_loop_eof fuel sha content p :
  Z.of_nat (length content) ≤ p →
  sha_file_loop fuel sha (File content p) = (sha_update sha [], File content p).
Proof.
  intros Hp.
  assert (sha_file_loop fuel sha (File content p)
          = let '(read, f) := f_read (1024 * 1024) (File content p) in
            let sha := sha_update sha read in
            match read, fuel with
            | [], _ | _, O => (sha, f)
            | _ :: _, S fuel => sha_file_loop fuel sha f
            end) as -> by (destruct fuel; reflexivity).
  rewrite f_read_chunk. cbv zeta.
  rewrite drop_ge by lia. rewrite take_nil. cbn [length].
  rewrite Z.add_0_r. reflexivity.
Qed.

(** A file of at most one chunk, read from its start: [sha_file] feeds
    its bytes, then the empty read that ends the loop, and derives the
    secondary digest by feeding the primary one back. *)
Lemma sha_file_one_chunk (w : world D G) :
  f_pos (w_file w) = 0 →
  0 < Z.of_nat (length (f_content (w_file w))) ≤ 1024 * 1024 →
  let content := f_content (w_file w) in
  let sha1 := sha_update (sha_update (w_sha w) content) [] in
  let sha2 := sha_update sha1 (sha_digest sha1) in
  sha_file w
  = ((sha_digest sha1, sha_digest sha2),
     World sha2 (w_rng w) (File content (Z.of_nat (length content)))).
Proof.
  destruct w as [sha g [content pos]]. cbn [w_file w_sha w_rng f_pos f_content].
  intros -> Hlen. cbv zeta.
  assert (sha_file_loop (length content) sha (File content 0)
          = (sha_update (sha_update sha content) [],
             File content (Z.of_nat (length content)))) as Hloop.
  { destruct (length content) as [|k] eqn:Hk; [lia|].
    cbn [sha_file_loop]. rewrite f_read_chunk. cbv zeta.
    change (Z.to_nat 0) with 0%nat. rewrite drop_0.
    rewrite take_ge by lia. rewrite Hk, Z.add_0_l.
    destruct content as [|c content']; [discriminate|].
    rewrite sha_file_loop_eof by (rewrite Hk; lia). reflexivity. }
  unfold sha_file. cbn [w_file w_sha w_rng f_pos f_content].
  change (Z.to_nat 0) with 0%nat. rewrite drop_0, Hloop. reflexivity.
Qed.


End digest_facts.

Lemma lcg_in_range : RandintInRange Standin.lcg.
Proof.
  intros a b g Hab. simpl.
  pose proof (Z.mod_pos_bound g (b - a + 1)). lia.
Qed.



(** C1 (two runs on the same file with the same parameters give the same
    offsets and digests, whatever the generator state before the call): the
    offsets are drawn on line 300, the generator is seeded on line 307.  Two
    runs over the same 20 bytes with one block of 4 bytes requested, started
    from generator states 1 and 2, read at different offsets and return
    different digest pairs. *)
Theorem sha_file_random_depends_on_entry_generator :
  let run g :=
    sha_file_random
      (World (D:=Standin.transcript) (G:=Standin.lcg) [] g (File (Standin.ramp 20) 0))
      None (Some 1) None None (Some 4) None in
  let offsets g := block_offsets (G:=Standin.lcg) 20 4 None (Some 1) None None g in
  fst <$> offsets 1 = Ok [0; 1; 16]
  ∧ fst <$> offsets 2 = Ok [0; 2; 16]
  ∧ is_Ok (run 1) ∧ is_Ok (run 2)
  ∧ fst <$> run 1 ≠ fst <$> run 2.
Proof.
  cbv zeta. split; [reflexivity|]. split; [reflexivity|].
  split; [eexists; reflexivity|]. split; [eexists; reflexivity|].
  vm_compute. discriminate.
Qed.

(** C2 (the offsets are drawn from the generator only after it was seeded
    with the digest of the size string): the size string is fed and the
    generator seeded before any block is read, but the offsets were drawn
    before that, from the state found on entry.  Over 20 bytes with one
    block of 4 bytes, entered with generator state 1: the seeded generator
    would give the offsets 0, 13, 16; the digest is that of the size string
    followed by the blocks at 0, 1 and 16; the seeded generator is left
    behind unused. *)
Theorem sha_file_random_draws_before_seeding :
  let content := Standin.ramp 20 in
  let w := World (D:=Standin.transcript) (G:=Standin.lcg) [] 1 (File content 0) in
  let seeded := rng_seed (sha_digest (sha_update (w_sha w) (Py.str 20))) in
  let block o := take 4 (drop o content) in
  let run := sha_file_random w None (Some 1) None None (Some 4) None in
  fst <$> block_offsets 20 4 None (Some 1) None None seeded = Ok [0; 13; 16]
  ∧ fst <$> block_offsets 20 4 None (Some 1) None None (w_rng w) = Ok [0; 1; 16]
  ∧ (fst ∘ fst) <$> run = Ok (Py.str 20 ++ block 0%nat ++ block 1%nat ++ block 16%nat)
  ∧ (w_rng ∘ snd) <$> run = Ok seeded.
Proof. cbv zeta. repeat split; reflexivity. Qed.

(** ** The orchestrator *)

Lemma slice0_nonneg {A} (l : list A) k : 0 ≤ k → Py.slice0 l k = take (Z.to_nat k) l.
Proof.
  intros Hk. unfold Py.slice0. destruct (Z.ltb_spec k 0); [lia|]. reflexivity.
Qed.

Lemma padding_bytes_64 (hash : list byte) :
  length hash = 64%nat → padding_bytes hash = 0.
Proof. intros Hlen. unfold padding_bytes. rewrite Hlen. reflexivity. Qed.

Lemma encoder_input_64 (hash hash2 : list byte) :
  length hash = 64%nat → encoder_input hash hash2 = hash.
Proof.
  intros Hlen. unfold encoder_input. rewrite padding_bytes_64 by done.
  rewrite slice0_nonneg by lia. simpl. apply app_nil_r.
Qed.

(** C4 (a 64-byte digest is padded with one byte of the secondary digest,
    which fills the last word): [padding] is [12 - 512 % 12 = 4] and
    [padding_bytes] is [4 // 8 = 0], so no byte of the secondary digest
    reaches the encoder and the words do not depend on it. *)
Theorem encoder_input_64_byte_digest (hash hash2 : list byte) :
  length hash = 64%nat →
  padding_bytes hash = 0
  ∧ encoder_input hash hash2 = hash
  ∧ ∀ wordlist n hash2',
      hash_words wordlist hash hash2 n = hash_words wordlist hash hash2' n.
Proof.
  intros Hlen. split; [by apply padding_bytes_64|].
  split; [by apply encoder_input_64|].
  intros wordlist n hash2'. unfold hash_words.
  rewrite !encoder_input_64 by done. reflexivity.
Qed.

Lemma encoder_input_64_byte_digest_witness :
  padding_bytes (replicate 64 xff) = 0
  ∧ encoder_input (replicate 64 xff) (replicate 64 xa5) = replicate 64 xff
  ∧ ∀ wordlist n hash2',
      hash_words wordlist (replicate 64 xff) (replicate 64 xa5) n
      = hash_words wordlist (replicate 64 xff) hash2' n.
Proof.
  apply (encoder_input_64_byte_digest (replicate 64 xff) (replicate 64 xa5)).
  reflexivity.
Defined.

(** The number of words of a 64-byte digest is that of the bits the
    encoder consumes from it: 43 only if at most 7 of the 512 bits are
    skipped as leading zeros. *)
Lemma hash_words_64_byte_digest_length (wordlist : list string) hash hash2 :
  length wordlist = 4096%nat → length hash = 64%nat →
  ∃ words, hash_words wordlist hash hash2 (Some 43) = Ok words
           ∧ Z.of_nat (length words) = ceil_div (consumed_bits hash) 12.
Proof.
  intros HN Hlen. unfold hash_words.
  rewrite encoder_input_64 by done.
  destruct (key_to_english_length hash wordlist HN) as (words & -> & Hwords).
  simpl. exists (Py.slice0 words 43). split; [reflexivity|].
  rewrite slice0_nonneg, length_take by lia.
  pose proof (consumed_bits_le hash) as Hbits. rewrite Hlen in Hbits.
  assert (ceil_div (consumed_bits hash) 12 < 44).
  { unfold ceil_div. apply Z.div_lt_upper_bound; lia. }
  lia.
Qed.

(** A 64-byte digest whose bytes are all 01 yields 6 words, not 43; one
    whose bytes are all ff yields 43, the last from 8 bits only. *)
Lemma hash_words_64_byte_digest_examples :
  hash_words Standin.numerals (replicate 64 x01) (replicate 64 xff) (Some 43)
    = Ok ["4095"; "4095"; "4095"; "4095"; "4095"; "15"]%string
  ∧ (last <$> hash_words Standin.numerals (replicate 64 xff) (replicate 64 xff) (Some 43))
    = Ok (Some "255"%string).
Proof. split; vm_compute; reflexivity. Qed.

(** C8: for a vocabulary of at least two words the encoder is a function
    of its input, and truncation to [k ≥ 0] words takes the first [k] words
    of the full sequence, so that the result for [k] is a prefix of the
    result for [k + 1]. *)
Theorem hash_words_prefix_stable (wordlist : list string) hash hash2 (k : Z) :
  (2 ≤ length wordlist)%nat → 0 ≤ k →
  ∃ words wk wk1,
    hash_words wordlist hash hash2 None = Ok words
    ∧ hash_words wordlist hash hash2 (Some k) = Ok wk
    ∧ hash_words wordlist hash hash2 (Some (k + 1)) = Ok wk1
    ∧ wk = take (Z.to_nat k) words
    ∧ wk `prefix_of` wk1
    ∧ ∀ s1 s2, s1 = s2 → key_to_english s1 wordlist = key_to_english s2 wordlist.
Proof.
  intros HN Hk. unfold hash_words.
  destruct (key_to_english_total (λ _, True) (encoder_input hash hash2) wordlist)
    as (words & -> & _); [done..|].
  simpl. rewrite !slice0_nonneg by lia.
  exists words, (take (Z.to_nat k) words), (take (Z.to_nat (k + 1)) words).
  repeat split; [|by intros s1 s2 ->].
  replace (take (Z.to_nat k) words)
    with (take (Z.to_nat k) (take (Z.to_nat (k + 1)) words))
    by (rewrite take_take; f_equal; lia).
  apply prefix_take.
Qed.

Lemma hash_words_prefix_stable_witness :
  ∃ words wk wk1,
    hash_words Standin.numerals (replicate 64 xff) (replicate 64 xa5) None = Ok words
    ∧ hash_words Standin.numerals (replicate 64 xff) (replicate 64 xa5) (Some 4) = Ok wk
    ∧ hash_words Standin.numerals (replicate 64 xff) (replicate 64 xa5) (Some (4 + 1)) = Ok wk1
    ∧ wk = take (Z.to_nat 4) words
    ∧ wk `prefix_of` wk1
    ∧ ∀ s1 s2, s1 = s2 →
        key_to_english s1 Standin.numerals = key_to_english s2 Standin.numerals.
Proof.
  apply (hash_words_prefix_stable Standin.numerals (replicate 64 xff) (replicate 64 xa5) 4).
  - vm_compute. lia.
  - lia.
Defined.

(** [wordhash] read backwards: the string returned is the space-joined
    words of the digest pair of the chosen driver. *)
Lemma wordhash_inv `{D : Digest} `{G : PRNG} (wordlist : list string) (w w' : world D G)
    n blocks percent min_blocks max_blocks block_size filesize out :
  wordhash wordlist w n blocks percent min_blocks max_blocks block_size filesize
    = Ok (out, w') →
  ∃ hash hash2 words,
    match blocks, percent with
    | None, None => sha_file w = ((hash, hash2), w')
    | _, _ =>
        sha_file_random w percent blocks min_blocks max_blocks block_size filesize
        = Ok ((hash, hash2), w')
    end
    ∧ hash_words wordlist hash hash2 n = Ok words
    ∧ out = Py.join_space words.
Proof.
  unfold wordhash. intros H.
  destruct (match blocks, percent with
            | None, None => Ok (sha_file w)
            | _, _ => sha_file_random w percent blocks min_blocks max_blocks block_size filesize
            end) as [[[hash hash2] w1]|] eqn:Hdigest; [|discriminate].
  simpl in H.
  destruct (hash_words wordlist hash hash2 n) as [words|] eqn:Hwords; [|discriminate].
  simpl in H. inversion H; subst.
  exists hash, hash2, words. split; [|done].
  destruct blocks, percent; try done. by inversion Hdigest.
Qed.

(** * Further properties *)

(** ** The encoder as a function of the bit stream *)

Section bit_stream_facts.
Context {W : Type}.
Implicit Types (words : list W) (st : enc_state W) (s : list byte).

Lemma while_body_feed words nbits byte st :
  while_body words nbits byte st
  = (λ st', (Z.shiftr byte 1, st')) <$> feed_bit words nbits (Z.land byte 1) st.
Proof.
  unfold while_body, feed_bit. destruct (_ =? nbits); [|reflexivity].
  destruct (Py.index words _); reflexivity.
Qed.

Lemma byte_bits_0 : byte_bits 0 = [].
Proof. reflexivity. Qed.

Lemma land_1_testbit byte : Z.land byte 1 = Z.b2z (Z.testbit byte 0).
Proof.
  rewrite Z.bit0_mod. pose proof (Z.land_ones byte 1) as H.
  change (Z.ones 1) with 1 in H. change (2 ^ 1) with 2 in H. lia.
Qed.

Lemma byte_bits_pos byte :
  0 < byte → byte_bits byte = Z.land byte 1 :: byte_bits (Z.shiftr byte 1).
Proof.
  intros Hb. unfold byte_bits.
  rewrite (bit_length_shiftr byte Hb).
  assert (1 ≤ bit_length byte) as Hlen.
  { unfold bit_length. destruct (Z.eqb_spec byte 0); [lia|].
    pose proof (Z.log2_nonneg byte). lia. }
  rewrite (seqZ_cons 0 (bit_length byte)) by lia.
  rewrite fmap_cons, land_1_testbit. f_equal.
  replace (Z.pred (bit_length byte)) with (bit_length byte - 1) by lia.
  change (Z.succ 0) with (1 + 0). rewrite <- (fmap_add_seqZ 1 0).
  rewrite <- list_fmap_compose. apply list_fmap_ext. intros k i Hi. simpl.
  apply lookup_seqZ in Hi as [-> Hi].
  rewrite Z.shiftr_spec by lia. do 2 f_equal. lia.
Qed.

Lemma while_fuel_feed fuel : ∀ words nbits byte st,
  0 ≤ byte → bit_length byte ≤ Z.of_nat fuel →
  while_fuel fuel words nbits byte st = feed_bits words nbits (byte_bits byte) st.
Proof.
  induction fuel as [|fuel IH]; intros words nbits byte st Hb Hfuel.
  - assert (byte = 0) as ->.
    { unfold bit_length in Hfuel. destruct (Z.eqb_spec byte 0); [done|].
      pose proof (Z.log2_nonneg byte). lia. }
    reflexivity.
  - simpl. destruct (Z.eqb_spec byte 0) as [->|Hne]; [reflexivity|].
    rewrite byte_bits_pos by lia. simpl.
    rewrite while_body_feed.
    destruct (feed_bit words nbits (Z.land byte 1) st) as [st'|]; [|reflexivity].
    simpl. apply IH; [apply Z.shiftr_nonneg; lia|].
    rewrite bit_length_shiftr by lia. lia.
Qed.

Lemma feed_bits_app words nbits bits1 bits2 st :
  feed_bits words nbits (bits1 ++ bits2) st
  = feed_bits words nbits bits1 st ≫= feed_bits words nbits bits2.
Proof.
  revert st. induction bits1 as [|b bits1 IH]; intros st; simpl; [reflexivity|].
  destruct (feed_bit words nbits b st) as [st'|]; [|reflexivity]. simpl. apply IH.
Qed.

(** The two loops only see the bit stream of the input. *)
Lemma for_chars_feed s : ∀ words nbits st,
  for_chars words nbits s st = feed_bits words nbits (bit_stream s) st.
Proof.
  induction s as [|c s IH]; intros words nbits st; [reflexivity|].
  unfold bit_stream. rewrite fmap_cons. simpl. rewrite feed_bits_app.
  unfold while_byte. rewrite while_fuel_feed;
    [|apply ord_range|pose proof (bit_length_nonneg (Py.ord c)); lia].
  destruct (feed_bits words nbits (byte_bits (Py.ord c)) st) as [st'|]; [|reflexivity].
  simpl. apply IH.
Qed.

Lemma key_to_english_feed s words :
  key_to_english s words
  = nbits ← nbits_of words;
    st ← feed_bits words nbits (bit_stream s) (EncState [] 0 0);
    trailing_word words st.
Proof.
  unfold key_to_english. destruct (nbits_of words) as [nbits|]; [|reflexivity].
  simpl. rewrite for_chars_feed. reflexivity.
Qed.

End bit_stream_facts.

(** X1: the encoder only sees the bits of each character up to its most
    significant set bit: two inputs with the same bit stream are encoded
    alike (to the same words, or the same exception), whatever the
    vocabulary. *)
Theorem key_to_english_same_bit_stream {W} (s1 s2 : list byte) (words : list W) :
  bit_stream s1 = bit_stream s2 →
  key_to_english s1 words = key_to_english s2 words.
Proof. intros H. rewrite !key_to_english_feed, H. reflexivity. Qed.

Lemma key_to_english_same_bit_stream_witness :
  key_to_english [x01; x01] Standin.numerals = key_to_english [x03] Standin.numerals.
Proof.
  apply (key_to_english_same_bit_stream [x01; x01] [x03] Standin.numerals).
  reflexivity.
Defined.

Lemma bit_stream_filter_zero (s : list byte) :
  bit_stream (filter (λ c, Py.ord c ≠ 0) s) = bit_stream s.
Proof.
  induction s as [|c s IH]; [reflexivity|].
  rewrite filter_cons. destruct (decide (Py.ord c ≠ 0)) as [Hc|Hc].
  - unfold bit_stream in *. rewrite !fmap_cons. simpl. rewrite IH. reflexivity.
  - assert (Py.ord c = 0) as Hz by lia.
    unfold bit_stream in *. rewrite fmap_cons. simpl. rewrite Hz, byte_bits_0.
    simpl. exact IH.
Qed.

(** X2: zero bytes leave no trace: dropping every zero character from the
    input does not change what the encoder returns. *)
Theorem key_to_english_drops_zero_bytes {W} (s : list byte) (words : list W) :
  key_to_english (filter (λ c, Py.ord c ≠ 0) s) words = key_to_english s words.
Proof. rewrite !key_to_english_feed, bit_stream_filter_zero. reflexivity. Qed.

(** ** Groups of bits *)

Lemma byte_bits_are_bits byte : Forall is_bit (byte_bits byte).
Proof.
  unfold byte_bits. apply Forall_fmap, Forall_forall. intros i _. simpl.
  unfold is_bit. destruct (Z.testbit byte i); auto.
Qed.

Lemma bit_stream_are_bits s : Forall is_bit (bit_stream s).
Proof.
  unfold bit_stream. apply Forall_concat, Forall_fmap, Forall_forall.
  intros c _. apply byte_bits_are_bits.
Qed.

Lemma bit_stream_app s1 s2 : bit_stream (s1 ++ s2) = bit_stream s1 ++ bit_stream s2.
Proof. unfold bit_stream. rewrite fmap_app, concat_app. reflexivity. Qed.

Lemma bit_stream_length s : Z.of_nat (length (bit_stream s)) = consumed_bits s.
Proof.
  induction s as [|c s IH]; [reflexivity|].
  unfold bit_stream in *. rewrite fmap_cons. simpl. rewrite length_app, Nat2Z.inj_add, IH.
  f_equal. unfold byte_bits. rewrite length_fmap, length_seqZ.
  pose proof (bit_length_nonneg (Py.ord c)). lia.
Qed.

Lemma bits_value_snoc bits b : bits_value (bits ++ [b]) = 2 * bits_value bits + b.
Proof. unfold bits_value. rewrite fold_left_app. reflexivity. Qed.

Lemma bits_value_nonneg bits : Forall is_bit bits → 0 ≤ bits_value bits.
Proof.
  induction bits as [|b bits IH] using rev_ind; intros Hbits; [done|].
  apply Forall_app in Hbits as [Hbits Hb]. rewrite Forall_singleton in Hb.
  rewrite bits_value_snoc. specialize (IH Hbits). unfold is_bit in Hb. lia.
Qed.

Lemma index_Ok_lookup {W} (words : list W) i w :
  Py.index words i = Ok w → 0 ≤ i → words !! Z.to_nat i = Some w.
Proof.
  unfold Py.index. intros H Hi.
  assert ((i <? 0) = false) as Hneg by lia. rewrite Hneg in H. cbv zeta in H.
  rewrite Hneg in H. destruct (words !! Z.to_nat i); [|discriminate].
  by inversion H.
Qed.

Lemma lor_shiftl_is_bit ix b :
  0 ≤ ix → is_bit b → Z.lor (Z.shiftl ix 1) b = 2 * ix + b.
Proof.
  intros Hix Hb. assert (b = Z.land b 1) as Hland by (destruct Hb; subst; reflexivity).
  rewrite Hland at 1. destruct (lor_shiftl_bit ix b Hix) as [-> _]. lia.
Qed.

Section grouping.
Context {W : Type} (words : list W) (nbits : Z).

Lemma grouped_init : 0 < nbits → grouped words nbits [] (EncState [] 0 0).
Proof.
  intros Hnb. exists [], []. simpl. repeat split; done.
Qed.

Lemma feed_bit_grouped bits b st st' :
  Forall is_bit bits → is_bit b →
  grouped words nbits bits st →
  feed_bit words nbits b st = Ok st' →
  grouped words nbits (bits ++ [b]) st'.
Proof.
  intros Hbits Hb (groups & partial & -> & Hfull & Hout & Hix & Hn & Hlt) Hfeed.
  apply Forall_app in Hbits as [_ Hpartial].
  pose proof (bits_value_nonneg partial Hpartial) as Hnn.
  unfold feed_bit in Hfeed.
  rewrite lor_shiftl_is_bit in Hfeed by (rewrite ?Hix; done).
  rewrite Hix, <- bits_value_snoc in Hfeed.
  destruct (Z.eqb_spec (st_n st + 1) nbits) as [Heq|Hne].
  - destruct (Py.index words _) as [w|] eqn:Hw; [|discriminate].
    simpl in Hfeed. inversion Hfeed; subst st'; clear Hfeed.
    apply index_Ok_lookup in Hw;
      [|apply bits_value_nonneg, Forall_app; split; [done|by apply Forall_singleton]].
    exists (groups ++ [partial ++ [b]]), []. simpl.
    rewrite concat_app. simpl. rewrite !app_nil_r, <- app_assoc.
    repeat split; try done; try lia.
    + apply Forall_app. split; [done|]. apply Forall_singleton.
      rewrite length_app. simpl. lia.
    + apply Forall2_app; [done|]. by apply Forall2_cons.
  - inversion Hfeed; subst st'; clear Hfeed.
    exists groups, (partial ++ [b]). simpl. rewrite app_assoc.
    repeat split; try done; rewrite ?length_app; simpl; lia.
Qed.

Lemma feed_bits_grouped bits2 : ∀ bits st st',
  Forall is_bit (bits ++ bits2) →
  grouped words nbits bits st →
  feed_bits words nbits bits2 st = Ok st' →
  grouped words nbits (bits ++ bits2) st'.
Proof.
  induction bits2 as [|b bits2 IH]; intros bits st st' Hbits Hg Hfeed; simpl in Hfeed.
  - inversion Hfeed; subst. by rewrite app_nil_r.
  - destruct (feed_bit words nbits b st) as [st1|] eqn:Hb; [|discriminate].
    simpl in Hfeed.
    replace (bits ++ b :: bits2) with ((bits ++ [b]) ++ bits2) in *
      by (by rewrite <- app_assoc).
    apply (IH _ st1); [done| |done].
    apply Forall_app in Hbits as [Hbits _]. apply Forall_app in Hbits as [Hbits Hb'].
    rewrite Forall_singleton in Hb'. by eapply feed_bit_grouped.
Qed.

End grouping.

Lemma nbits_of_two {W} (words : list W) :
  (2 ≤ length words)%nat →
  nbits_of words = Ok (Z.log2 (Z.of_nat (length words)))
  ∧ 1 ≤ Z.log2 (Z.of_nat (length words))
  ∧ 2 ^ Z.log2 (Z.of_nat (length words)) ≤ Z.of_nat (length words).
Proof.
  intros HN. split; [destruct words; [simpl in HN; lia|reflexivity]|]. split.
  - apply (Z.log2_le_mono 2). lia.
  - apply Z.log2_spec. lia.
Qed.

(** A run over a vocabulary of at least two words, with what is known of
    the loop variables when the bits are consumed. *)
Lemma key_to_english_run {W} (s : list byte) (words : list W) :
  (2 ≤ length words)%nat →
  ∃ st out,
    feed_bits words (Z.log2 (Z.of_nat (length words))) (bit_stream s) (EncState [] 0 0)
      = Ok st
    ∧ grouped words (Z.log2 (Z.of_nat (length words))) (bit_stream s) st
    ∧ enc_inv (Z.log2 (Z.of_nat (length words))) (consumed_bits s) st
    ∧ trailing_word words st = Ok out
    ∧ key_to_english s words = Ok out.
Proof.
  intros HN. destruct (nbits_of_two words HN) as (Hnbits & Hnb & Hpow).
  set (nbits := Z.log2 (Z.of_nat (length words))) in *.
  destruct (for_chars_inv words nbits (λ _, True) Hpow (λ _ _ _ _, I) s 0 (EncState [] 0 0))
    as (st & Hfor & Hinv & _); [unfold enc_inv; simpl; lia|done|].
  rewrite for_chars_feed in Hfor. rewrite Z.add_0_l in Hinv.
  destruct (key_to_english_total (λ _, True) s words) as (out & Hout & _); [done..|].
  exists st, out. split; [done|]. split.
  { apply (feed_bits_grouped words nbits (bit_stream s) [] (EncState [] 0 0) st);
      [apply bit_stream_are_bits|apply grouped_init; lia|done]. }
  split; [done|]. split; [|done].
  rewrite key_to_english_feed, Hnbits in Hout. simpl in Hout.
  rewrite Hfor in Hout. exact Hout.
Qed.

Lemma trailing_word_inv {W} (words : list W) st out :
  trailing_word words st = Ok out → 0 ≤ st_ix st →
  (st_n st ≤ 0 ∧ out = st_out st)
  ∨ (0 < st_n st ∧ ∃ w, words !! Z.to_nat (st_ix st) = Some w ∧ out = st_out st ++ [w]).
Proof.
  unfold trailing_word. intros H Hix.
  destruct (Z.ltb_spec 0 (st_n st)) as [Hpos|Hzero].
  - destruct (Py.index words (st_ix st)) as [w|] eqn:Hw; [|discriminate].
    simpl in H. inversion H; subst. right. split; [done|].
    exists w. split; [|done]. by apply index_Ok_lookup.
  - inversion H; subst. left. done.
Qed.

(** X3: for a vocabulary of at least two words, the bit stream of the
    input splits into consecutive groups of [nbits = floor(log2 N)] bits
    and a last group of fewer bits; the encoder returns one word per
    non-empty group, the word whose index is the binary number written by
    the group, first bit most significant. *)
Theorem key_to_english_bit_groups {W} (s : list byte) (words : list W) :
  (2 ≤ length words)%nat →
  ∃ full partial out,
    bit_stream s = concat full ++ partial
    ∧ Forall (λ g, Z.of_nat (length g) = Z.log2 (Z.of_nat (length words))) full
    ∧ Z.of_nat (length partial) < Z.log2 (Z.of_nat (length words))
    ∧ key_to_english s words = Ok out
    ∧ Forall2 (λ g w, words !! Z.to_nat (bits_value g) = Some w)
        (selecting_groups full partial) out.
Proof.
  intros HN.
  destruct (key_to_english_run s words HN)
    as (st & out & _ & (full & partial & Hbits & Hfull & Hwords & Hix & Hn & Hlt)
        & Hinv & Htrail & Hout).
  exists full, partial, out.
  split; [done|]. split; [done|]. split; [lia|]. split; [done|].
  apply trailing_word_inv in Htrail; [|destruct Hinv as (_ & ? & _); lia].
  destruct Htrail as [[Hzero ->]|(Hpos & w & Hw & ->)].
  - destruct partial as [|b partial]; [done|]. simpl in Hn. lia.
  - destruct partial as [|b partial]; [simpl in Hn; lia|]. simpl.
    apply Forall2_app; [done|]. constructor; [|constructor].
    rewrite <- Hix. done.
Qed.

Lemma key_to_english_bit_groups_witness :
  ∃ full partial out,
    bit_stream [xa5; x0f; x80] = concat full ++ partial
    ∧ Forall (λ g, Z.of_nat (length g) = Z.log2 (Z.of_nat (length Standin.numerals))) full
    ∧ Z.of_nat (length partial) < Z.log2 (Z.of_nat (length Standin.numerals))
    ∧ key_to_english [xa5; x0f; x80] Standin.numerals = Ok out
    ∧ Forall2 (λ g w, Standin.numerals !! Z.to_nat (bits_value g) = Some w)
        (selecting_groups full partial) out.
Proof.
  apply (key_to_english_bit_groups [xa5; x0f; x80] Standin.numerals).
  vm_compute. lia.
Defined.

(** ** Number of words *)

(** X4: for a vocabulary of at least two words the encoder returns
    [ceil(consumed / nbits)] words, where [consumed] counts, for each
    character, the binary digits up to its most significant set bit. *)
Theorem key_to_english_word_count {W} (s : list byte) (words : list W) :
  (2 ≤ length words)%nat →
  ∃ out, key_to_english s words = Ok out
         ∧ Z.of_nat (length out)
           = ceil_div (Z.of_nat (length (bit_stream s))) (Z.log2 (Z.of_nat (length words)))
         ∧ Z.of_nat (length (bit_stream s)) ≤ 8 * Z.of_nat (length s).
Proof.
  intros HN.
  destruct (key_to_english_total (λ _, True) s words) as (out & Hout & _ & Hlen);
    [done..|].
  exists out. rewrite bit_stream_length. split; [done|]. split; [done|].
  apply consumed_bits_le.
Qed.

Lemma key_to_english_word_count_witness :
  ∃ out, key_to_english [x01; x00; xff] [10; 20; 30; 40] = Ok out
         ∧ Z.of_nat (length out)
           = ceil_div (Z.of_nat (length (bit_stream [x01; x00; xff])))
               (Z.log2 (Z.of_nat (length [10; 20; 30; 40])))
         ∧ Z.of_nat (length (bit_stream [x01; x00; xff]))
           ≤ 8 * Z.of_nat (length [x01; x00; xff]).
Proof.
  apply (key_to_english_word_count [x01; x00; xff] [10; 20; 30; 40]).
  simpl. lia.
Defined.

Lemma consumed_bits_full s :
  Forall (λ c, 128 ≤ Py.ord c) s → consumed_bits s = 8 * Z.of_nat (length s).
Proof.
  induction 1 as [|c s Hc _ IH]; [reflexivity|].
  simpl consumed_bits. rewrite IH. cbn [length]. rewrite Nat2Z.inj_succ.
  assert (bit_length (Py.ord c) = 8); [|lia].
  pose proof (ord_range c) as Hr. unfold bit_length.
  destruct (Z.eqb_spec (Py.ord c) 0); [lia|].
  assert (Z.log2 (Py.ord c) = 7); [|lia].
  apply Z.log2_unique; lia.
Qed.

(** X5: when every character has its top bit set, all 8 bits of each are
    consumed and the encoder returns [ceil(8 * len(s) / nbits)] words. *)
Theorem key_to_english_full_bytes {W} (s : list byte) (words : list W) :
  (2 ≤ length words)%nat → Forall (λ c, 128 ≤ Py.ord c) s →
  ∃ out, key_to_english s words = Ok out
         ∧ Z.of_nat (length out)
           = ceil_div (8 * Z.of_nat (length s)) (Z.log2 (Z.of_nat (length words))).
Proof.
  intros HN Hfull.
  destruct (key_to_english_total (λ _, True) s words) as (out & Hout & _ & Hlen);
    [done..|].
  exists out. split; [done|]. rewrite Hlen, consumed_bits_full by done. reflexivity.
Qed.

Lemma key_to_english_full_bytes_witness :
  ∃ out, key_to_english [xa5; x80; xff] Standin.numerals = Ok out
         ∧ Z.of_nat (length out)
           = ceil_div (8 * Z.of_nat (length [xa5; x80; xff]))
               (Z.log2 (Z.of_nat (length Standin.numerals))).
Proof.
  apply (key_to_english_full_bytes [xa5; x80; xff] Standin.numerals).
  - vm_compute. lia.
  - repeat constructor; vm_compute; discriminate.
Defined.

(** ** Concatenated inputs *)

Section prepending.
Context {W : Type} (words : list W) (nbits : Z) (pre : list W).

Lemma feed_bit_prepend b st :
  feed_bit words nbits b (prepend_out pre st)
  = prepend_out pre <$> feed_bit words nbits b st.
Proof.
  unfold feed_bit. simpl. destruct (_ =? nbits); [|reflexivity].
  destruct (Py.index words _); [|reflexivity]. simpl.
  unfold prepend_out. simpl. rewrite app_assoc. reflexivity.
Qed.

Lemma feed_bits_prepend bits : ∀ st,
  feed_bits words nbits bits (prepend_out pre st)
  = prepend_out pre <$> feed_bits words nbits bits st.
Proof.
  induction bits as [|b bits IH]; intros st; simpl; [reflexivity|].
  rewrite feed_bit_prepend.
  destruct (feed_bit words nbits b st) as [st'|]; [|reflexivity]. simpl. apply IH.
Qed.

Lemma trailing_word_prepend st :
  trailing_word words (prepend_out pre st) = (pre ++.) <$> trailing_word words st.
Proof.
  unfold trailing_word. simpl. destruct (0 <? st_n st); [|reflexivity].
  destruct (Py.index words _); [|reflexivity]. simpl. rewrite app_assoc. reflexivity.
Qed.

End prepending.

(** X6: when the bits consumed from [s1] fill whole groups, encoding
    [s1 ++ s2] gives the words of [s1] followed by the words of [s2]. *)
Theorem key_to_english_app {W} (s1 s2 : list byte) (words : list W) :
  (2 ≤ length words)%nat →
  Z.of_nat (length (bit_stream s1)) mod Z.log2 (Z.of_nat (length words)) = 0 →
  ∃ out1 out2,
    key_to_english s1 words = Ok out1
    ∧ key_to_english s2 words = Ok out2
    ∧ key_to_english (s1 ++ s2) words = Ok (out1 ++ out2).
Proof.
  intros HN Hmod. destruct (nbits_of_two words HN) as (Hnbits & Hnb & _).
  set (nbits := Z.log2 (Z.of_nat (length words))) in *.
  destruct (key_to_english_run s1 words HN)
    as (st1 & out1 & Hfeed1 & _ & (Hn & Hix & Hlen) & Htrail1 & Hout1).
  destruct (key_to_english_run s2 words HN)
    as (st2 & out2 & Hfeed2 & _ & _ & Htrail2 & Hout2).
  fold nbits in Hfeed1, Hfeed2, Hn, Hix, Hlen.
  rewrite bit_stream_length in Hmod.
  assert (st_n st1 = 0) as Hn0.
  { rewrite <- Hlen, Z.add_comm, Z.mod_add in Hmod by lia.
    rewrite Z.mod_small in Hmod by lia. done. }
  assert (st_ix st1 = 0) as Hix0 by (rewrite Hn0 in Hix; simpl in Hix; lia).
  assert (out1 = st_out st1) as ->.
  { unfold trailing_word in Htrail1. rewrite Hn0 in Htrail1. by inversion Htrail1. }
  assert (st1 = prepend_out (st_out st1) (EncState [] 0 0)) as Hst1.
  { destruct st1 as [o i n]. simpl in *. subst. unfold prepend_out. simpl.
    rewrite app_nil_r. reflexivity. }
  exists (st_out st1), out2. split; [done|]. split; [done|].
  rewrite key_to_english_feed, Hnbits. simpl.
  rewrite bit_stream_app, feed_bits_app, Hfeed1. simpl.
  rewrite Hst1 at 1. rewrite feed_bits_prepend, Hfeed2. simpl.
  rewrite trailing_word_prepend, Htrail2. reflexivity.
Qed.

Lemma key_to_english_app_witness :
  ∃ out1 out2,
    key_to_english [xff; x0f] Standin.numerals = Ok out1
    ∧ key_to_english [x81] Standin.numerals = Ok out2
    ∧ key_to_english ([xff; x0f] ++ [x81]) Standin.numerals = Ok (out1 ++ out2).
Proof.
  apply (key_to_english_app [xff; x0f] [x81] Standin.numerals).
  - vm_compute. lia.
  - reflexivity.
Defined.

(** ** Decoding *)

Lemma bits_value_inj (l1 : list Z) : ∀ l2,
  length l1 = length l2 → Forall is_bit l1 → Forall is_bit l2 →
  bits_value l1 = bits_value l2 → l1 = l2.
Proof.
  induction l1 as [|b1 l1 IH] using rev_ind; intros l2 Hlen H1 H2 Hval.
  - destruct l2; [done|discriminate].
  - destruct l2 as [|b2 l2 _] using rev_ind.
    { rewrite length_app in Hlen. simpl in Hlen. lia. }
    rewrite !length_app in Hlen. simpl in Hlen.
    apply Forall_app in H1 as [H1 Hb1]. rewrite Forall_singleton in Hb1.
    apply Forall_app in H2 as [H2 Hb2]. rewrite Forall_singleton in Hb2.
    rewrite !bits_value_snoc in Hval. unfold is_bit in Hb1, Hb2.
    assert (b1 = b2 ∧ bits_value l1 = bits_value l2) as [-> Hval'] by lia.
    f_equal. apply IH; [lia|done..].
Qed.

Lemma uniform_concat_length (groups : list (list Z)) (nbits : Z) :
  Forall (λ g, Z.of_nat (length g) = nbits) groups →
  Z.of_nat (length (concat groups)) = Z.of_nat (length groups) * nbits.
Proof.
  induction 1 as [|g groups Hg _ IH]; [reflexivity|].
  simpl. rewrite length_app. lia.
Qed.

Lemma groups_determined {W} (words : list W) (nbits : Z) (outs : list W) :
  NoDup words → ∀ groups1 groups2,
  Forall (λ g, Z.of_nat (length g) = nbits) groups1 →
  Forall (λ g, Z.of_nat (length g) = nbits) groups2 →
  Forall (Forall is_bit) groups1 → Forall (Forall is_bit) groups2 →
  Forall2 (λ g w, words !! Z.to_nat (bits_value g) = Some w) groups1 outs →
  Forall2 (λ g w, words !! Z.to_nat (bits_value g) = Some w) groups2 outs →
  groups1 = groups2.
Proof.
  intros Hnodup groups1 groups2 Hl1 Hl2 Hb1 Hb2 H1. revert groups2 Hl2 Hb2.
  induction H1 as [|g1 w groups1 outs Hw1 _ IH]; intros groups2 Hl2 Hb2 H2.
  - by inversion H2.
  - inversion H2 as [|g2 w' groups2' outs' Hw2 H2']; subst.
    apply Forall_cons in Hl1 as [Hg1 Hl1]. apply Forall_cons in Hl2 as [Hg2 Hl2].
    apply Forall_cons in Hb1 as [Hbit1 Hb1]. apply Forall_cons in Hb2 as [Hbit2 Hb2].
    f_equal; [|by apply IH].
    pose proof (NoDup_lookup _ _ _ _ Hnodup Hw1 Hw2) as Hidx.
    apply bits_value_inj; [lia|done..|].
    pose proof (bits_value_nonneg g1 Hbit1). pose proof (bits_value_nonneg g2 Hbit2). lia.
Qed.

(** X7: with a vocabulary of at least two distinct words, the words
    determine the bits that were consumed: two inputs of which the encoder
    consumes the same number of bits and returns the same words have the
    same bit stream. *)
Theorem key_to_english_decodable {W} (s1 s2 : list byte) (words : list W) :
  (2 ≤ length words)%nat → NoDup words →
  length (bit_stream s1) = length (bit_stream s2) →
  key_to_english s1 words = key_to_english s2 words →
  bit_stream s1 = bit_stream s2.
Proof.
  intros HN Hnodup Hlen Heq. destruct (nbits_of_two words HN) as (_ & Hnb & _).
  set (nbits := Z.log2 (Z.of_nat (length words))) in *.
  destruct (key_to_english_run s1 words HN)
    as (st1 & out1 & _ & (full1 & p1 & Hbits1 & Hfull1 & Hw1 & Hix1 & Hn1 & Hlt1)
        & (_ & Hixr1 & _) & Htrail1 & Hout1).
  destruct (key_to_english_run s2 words HN)
    as (st2 & out2 & _ & (full2 & p2 & Hbits2 & Hfull2 & Hw2 & Hix2 & Hn2 & Hlt2)
        & (_ & Hixr2 & _) & Htrail2 & Hout2).
  fold nbits in Hfull1, Hfull2, Hlt1, Hlt2.
  rewrite Hout1, Hout2 in Heq. inversion Heq; subst out2; clear Heq.
  pose proof (bit_stream_are_bits s1) as Hall1. rewrite Hbits1 in Hall1.
  pose proof (bit_stream_are_bits s2) as Hall2. rewrite Hbits2 in Hall2.
  apply Forall_app in Hall1 as [Hg1 Hp1]. apply Forall_app in Hall2 as [Hg2 Hp2].
  apply Forall_concat in Hg1, Hg2.
  assert (length full1 = length full2 ∧ length p1 = length p2) as [Hlf Hlp].
  { rewrite Hbits1, Hbits2, !length_app in Hlen.
    pose proof (uniform_concat_length full1 nbits Hfull1).
    pose proof (uniform_concat_length full2 nbits Hfull2).
    assert (Z.of_nat (length full1) = Z.of_nat (length full2)); [|lia].
    nia. }
  apply trailing_word_inv in Htrail1; [|lia]. apply trailing_word_inv in Htrail2; [|lia].
  assert (st_out st1 = st_out st2 ∧ p1 = p2) as [Hsame ->].
  { destruct Htrail1 as [[Hz1 ->]|(Hpos1 & w1 & Hl1 & ->)];
      destruct Htrail2 as [[Hz2 Ho]|(Hpos2 & w2 & Hl2 & Ho)]; try lia.
    - split; [done|]. destruct p1, p2; simpl in *; try lia. done.
    - apply app_inj_tail in Ho as [Ho ->]. split; [done|].
      pose proof (NoDup_lookup _ _ _ _ Hnodup Hl1 Hl2) as Hidx.
      apply bits_value_inj; [done..|]. lia. }
  rewrite Hsame in Hw1.
  rewrite Hbits1, Hbits2. f_equal. f_equal.
  by eapply (groups_determined words nbits (st_out st2)).
Qed.

Lemma key_to_english_decodable_witness :
  bit_stream [x01; x01] = bit_stream [x03].
Proof.
  apply (key_to_english_decodable [x01; x01] [x03] [10; 20; 30; 40]).
  - simpl. lia.
  - repeat constructor; rewrite ?elem_of_cons, ?elem_of_nil; lia.
  - reflexivity.
  - reflexivity.
Defined.

(** ** The block sampler, continued *)

(** X8: the clamping of the block count: the count never exceeds
    [max_blocks]; it is at least [min_blocks] unless [max_blocks] is
    smaller, in which case it is [max_blocks]. *)
Theorem n_blocks_of_clamped (size block_size : Z) percent n_blocks min_blocks max_blocks k :
  n_blocks_of size block_size percent n_blocks min_blocks max_blocks = Ok k →
  match min_blocks, max_blocks with
  | Some m, Some M => k ≤ M ∧ if decide (m ≤ M) then m ≤ k else k = M
  | None, Some M => k ≤ M
  | Some m, None => m ≤ k
  | None, None => True
  end.
Proof.
  unfold n_blocks_of. intros H.
  destruct (match n_blocks with None => _ | Some n => Ok n end) as [k0|]; [|discriminate].
  simpl in H. inversion H; subst k; clear H.
  destruct min_blocks as [m|], max_blocks as [M|]; try lia.
  destruct (decide (m ≤ M)); lia.
Qed.

Lemma n_blocks_of_clamped_witness :
  5 ≤ 5 ∧ if decide (100 ≤ 5) then 100 ≤ 5 else 5 = 5.
Proof.
  apply (n_blocks_of_clamped 10000 512 None (Some 7) (Some 100) (Some 5) 5).
  reflexivity.
Defined.

Section sampler_facts_2.
Context `{G : PRNG}.

(** X9: the offsets are in ascending order and there are [k + 2] of them,
    [k] being the clamped block count (none is dropped as a duplicate; a
    negative count draws nothing). *)
Theorem block_offsets_sorted_length
    size block_size percent n_blocks min_blocks max_blocks g offs g' :
  block_offsets size block_size percent n_blocks min_blocks max_blocks g = Ok (offs, g') →
  Sorted Z.le offs
  ∧ ∃ k, n_blocks_of size block_size percent n_blocks min_blocks max_blocks = Ok k
         ∧ length offs = (Z.to_nat k + 2)%nat.
Proof.
  intros H. apply block_offsets_inv in H as (k & Hk & -> & _).
  split; [apply sorted_Sorted|]. exists k. split; [done|].
  rewrite sorted_Permutation. simpl. rewrite length_app, randints_length. simpl. lia.
Qed.

Lemma sorted_head_le l h rest x :
  Py.sorted l = h :: rest → x ∈ l → h ≤ x.
Proof.
  intros Hs Hx.
  pose proof (StronglySorted_merge_sort Z.le l) as Hsorted.
  unfold Py.sorted in Hs. rewrite Hs in Hsorted.
  rewrite <- (sorted_Permutation l) in Hx. unfold Py.sorted in Hx. rewrite Hs in Hx.
  apply StronglySorted_inv in Hsorted as [_ Hall].
  apply elem_of_cons in Hx as [->|Hx]; [lia|].
  rewrite Forall_forall in Hall. by apply Hall.
Qed.

End sampler_facts_2.

Lemma block_offsets_sorted_length_witness :
  Sorted Z.le [0; 7; 4830; 4947; 9488]
  ∧ ∃ k, n_blocks_of 10000 512 None (Some 3) (Some 0) None = Ok k
         ∧ length [0; 7; 4830; 4947; 9488] = (Z.to_nat k + 2)%nat.
Proof.
  apply (block_offsets_sorted_length (G:=Standin.lcg)
           10000 512 None (Some 3) (Some 0) None 7
           [0; 7; 4830; 4947; 9488] 712265938).
  reflexivity.
Defined.

(** ** The sampled digest, continued *)

Section digest_facts_2.
Context `{D : Digest} `{G : PRNG}.

(** [sha_file_random] once the offsets are known. *)
Lemma sha_file_random_read (w : world D G) percent n_blocks min_blocks max_blocks
    block_size filesize offs g1 :
  let bs := default 512 block_size in
  let size := default (fstat_size (w_file w)) filesize in
  let sha0 := sha_update (w_sha w) (Py.str size) in
  block_offsets size bs percent n_blocks min_blocks max_blocks (w_rng w) = Ok (offs, g1) →
  sha_file_random w percent n_blocks min_blocks max_blocks block_size filesize
  = '(sha1, f1) ← read_blocks offs bs sha0 (w_file w);
    Ok ((sha_digest sha1, sha_digest (sha_update sha1 (sha_digest sha1))),
        World (sha_update sha1 (sha_digest sha1)) (rng_seed (sha_digest sha0)) f1).
Proof.
  intros bs size sha0 H. unfold sha_file_random.
  assert (match filesize with None => fstat_size (w_file w) | Some s => s end = size)
    as -> by (subst size; by destruct filesize).
  fold bs. rewrite H. reflexivity.
Qed.

(** The smallest offset is at most [size - block_size]: when that is
    negative, the first seek fails. *)
Lemma sha_file_random_negative_seek (w : world D G) percent n_blocks min_blocks
    max_blocks block_size filesize offs g1 :
  let bs := default 512 block_size in
  let size := default (fstat_size (w_file w)) filesize in
  block_offsets size bs percent n_blocks min_blocks max_blocks (w_rng w) = Ok (offs, g1) →
  size < bs →
  sha_file_random w percent n_blocks min_blocks max_blocks block_size filesize
  = Raise IOError.
Proof.
  intros bs size Hoffs Hlt.
  rewrite (sha_file_random_read _ _ _ _ _ _ _ _ _ Hoffs).
  apply block_offsets_inv in Hoffs as (k' & _ & Hsorted & _). cbv zeta in Hsorted.
  set (l := [0] ++ _ ++ [size - bs]) in Hsorted.
  assert (size - bs ∈ l) as Hin.
  { subst l. rewrite !elem_of_app, !list_elem_of_singleton. auto. }
  destruct offs as [|h rest].
  { rewrite <- (sorted_Permutation l), <- Hsorted in Hin. by inversion Hin. }
  pose proof (sorted_head_le l h rest (size - bs) (eq_sym Hsorted) Hin) as Hh.
  simpl. unfold f_seek. destruct (Z.ltb_spec h 0); [reflexivity|lia].
Qed.

(** X10: sampled hashing of a file smaller than one block fails: whenever
    the block count is determined and [size < block_size], the first seek
    goes to the negative offset [size - block_size] and raises [IOError]. *)
Theorem sha_file_random_small_file_fails (w : world D G) percent n_blocks
    min_blocks max_blocks block_size filesize k :
  let bs := default 512 block_size in
  let size := default (fstat_size (w_file w)) filesize in
  n_blocks_of size bs percent n_blocks min_blocks max_blocks = Ok k →
  size < bs →
  sha_file_random w percent n_blocks min_blocks max_blocks block_size filesize
  = Raise IOError.
Proof.
  intros bs size Hk Hlt.
  destruct (block_offsets size bs percent n_blocks min_blocks max_blocks (w_rng w))
    as [[offs g1]|e] eqn:Hoffs.
  - by eapply sha_file_random_negative_seek.
  - unfold block_offsets in Hoffs. rewrite Hk in Hoffs. simpl in Hoffs.
    destruct (randints _ _ _ _). discriminate.
Qed.


(** What the blocks loop feeds depends on the file through the blocks at
    the offsets alone. *)
Lemma read_blocks_same_blocks offs : ∀ block_size sha (f1 f2 : file),
  (∀ o, o ∈ offs → (f_read block_size (File (f_content f1) o)).1
                   = (f_read block_size (File (f_content f2) o)).1) →
  fst <$> read_blocks offs block_size sha f1 = fst <$> read_blocks offs block_size sha f2.
Proof.
  induction offs as [|o offs IH]; intros block_size sha f1 f2 Hsame; [reflexivity|].
  cbn [read_blocks]. unfold f_seek. destruct (o <? 0); [reflexivity|].
  cbn [mbind result_bind].
  pose proof (Hsame o ltac:(left)) as Ho.
  destruct (f_read block_size (File (f_content f1) o)) as [d1 f1'] eqn:H1.
  destruct (f_read block_size (File (f_content f2) o)) as [d2 f2'] eqn:H2.
  simpl in Ho. subst d2.
  assert (f_content f1' = f_content f1) as Hc1 by (unfold f_read in H1; by inversion H1).
  assert (f_content f2' = f_content f2) as Hc2 by (unfold f_read in H2; by inversion H2).
  apply IH. intros o' Ho'. rewrite Hc1, Hc2. apply Hsame. by right.
Qed.

(** X12: the sampled digest sees the file only through its size and the
    sampled blocks: two files of the same size that agree on the blocks at
    the offsets drawn get the same digest pair (or fail alike). *)
Theorem sha_file_random_sampled_blocks_only (sha : sha_state) (g : rng_state)
    (content1 content2 : list byte) percent n_blocks min_blocks max_blocks
    block_size filesize offs g1 :
  let bs := default 512 block_size in
  let size := default (Z.of_nat (length content1)) filesize in
  length content1 = length content2 →
  block_offsets size bs percent n_blocks min_blocks max_blocks g = Ok (offs, g1) →
  (∀ o, o ∈ offs → (f_read bs (File content1 o)).1 = (f_read bs (File content2 o)).1) →
  fst <$> sha_file_random (World sha g (File content1 0))
            percent n_blocks min_blocks max_blocks block_size filesize
  = fst <$> sha_file_random (World sha g (File content2 0))
              percent n_blocks min_blocks max_blocks block_size filesize.
Proof.
  intros bs size Hlen Hoffs Hsame.
  rewrite (sha_file_random_read (World sha g (File content1 0)) _ _ _ _ _ _ offs g1)
    by exact Hoffs.
  rewrite (sha_file_random_read (World sha g (File content2 0)) _ _ _ _ _ _ offs g1)
    by (simpl; unfold fstat_size; simpl; rewrite <- Hlen; exact Hoffs).
  simpl w_file. simpl w_sha. unfold fstat_size. simpl f_content. rewrite <- Hlen.
  fold size. fold bs.
  pose proof (read_blocks_same_blocks offs bs (sha_update sha (Py.str size))
                (File content1 0) (File content2 0) Hsame) as Hread.
  destruct (read_blocks offs bs _ (File content1 0)) as [[s1 f1]|e1];
    destruct (read_blocks offs bs _ (File content2 0)) as [[s2 f2]|e2];
    simpl in Hread; inversion Hread; subst; reflexivity.
Qed.

End digest_facts_2.

Lemma sha_file_random_small_file_fails_witness :
  sha_file_random
    (World (D:=Standin.transcript) (G:=Standin.lcg) [] 2 (File (Standin.ramp 3) 0))
    None (Some 1) None None (Some 4) None
  = Raise IOError.
Proof.
  apply (sha_file_random_small_file_fails
           (World (D:=Standin.transcript) (G:=Standin.lcg) [] 2 (File (Standin.ramp 3) 0))
           None (Some 1) None None (Some 4) None 1).
  - reflexivity.
  - unfold fstat_size. simpl. lia.
Defined.


Lemma sha_file_random_sampled_blocks_only_witness :
  let content1 := Standin.ramp 20 in
  let content2 := take 10 (Standin.ramp 20) ++ [xff] ++ drop 11 (Standin.ramp 20) in
  fst <$> sha_file_random
            (World (D:=Standin.transcript) (G:=Standin.lcg) [] 1 (File content1 0))
            None (Some 1) None None (Some 4) None
  = fst <$> sha_file_random
              (World (D:=Standin.transcript) (G:=Standin.lcg) [] 1 (File content2 0))
              None (Some 1) None None (Some 4) None.
Proof.
  apply (sha_file_random_sampled_blocks_only (D:=Standin.transcript) (G:=Standin.lcg)
           [] 1 (Standin.ramp 20)
           (take 10 (Standin.ramp 20) ++ [xff] ++ drop 11 (Standin.ramp 20))
           None (Some 1) None None (Some 4) None [0; 1; 16] 1103527590).
  - reflexivity.
  - reflexivity.
  - intros o Ho. rewrite !elem_of_cons in Ho.
    destruct Ho as [->|[->|[->|Ho]]]; [reflexivity..|by inversion Ho].
Defined.

(** ** The full digest *)

Section full_digest.
Context `{D : Digest} `{G : PRNG}.

Lemma sha_file_loop_rest (HD : DigestStreams D) fuel : ∀ sha content p,
  0 ≤ p →
  (length (drop (Z.to_nat p) content) ≤ fuel)%nat →
  sha_file_loop fuel sha (File content p)
  = (sha_update sha (drop (Z.to_nat p) content),
     File content (p + Z.of_nat (length (drop (Z.to_nat p) content)))).
Proof.
  destruct HD as [Happ Hnil].
  induction fuel as [|fuel IH]; intros sha content p Hp Hfuel.
  - destruct (drop (Z.to_nat p) content) as [|c rest] eqn:Hrest; [|simpl in Hfuel; lia].
    rewrite sha_file_loop_eof.
    + rewrite Hnil. simpl. rewrite Z.add_0_r. reflexivity.
    + apply (f_equal length) in Hrest. rewrite length_drop in Hrest. simpl in Hrest. lia.
  - cbn [sha_file_loop]. rewrite f_read_chunk. cbv zeta.
    set (chunk := Z.to_nat (1024 * 1024)).
    assert (0 < chunk)%nat as Hchunk by (subst chunk; lia).
    set (rest := drop (Z.to_nat p) content) in *.
    destruct (take chunk rest) as [|c data] eqn:Hdata.
    + assert (rest = []) as Hrest.
      { destruct rest; [done|]. destruct chunk; [lia|]. discriminate. }
      rewrite Hrest, Hnil. simpl. reflexivity.
    + rewrite <- Hdata.
      assert (length (take chunk rest) ≤ length rest)%nat as Hle
        by (rewrite length_take; lia).
      assert (0 < length (take chunk rest))%nat as Hpos by (rewrite Hdata; simpl; lia).
      rewrite IH; [|lia|].
      * assert (drop (Z.to_nat (p + Z.of_nat (length (take chunk rest)))) content
                = drop (length (take chunk rest)) rest) as ->.
        { subst rest. rewrite drop_drop. f_equal. lia. }
        rewrite Happ.
        assert (length (take chunk rest) = chunk `min` length rest)%nat as Hlt
          by apply length_take.
        replace (drop (length (take chunk rest)) rest) with (drop chunk rest).
        2:{ destruct (decide (chunk ≤ length rest)%nat).
            - f_equal. lia.
            - rewrite !drop_ge; [done|lia|lia]. }
        rewrite take_drop. f_equal. f_equal.
        rewrite <- (take_drop chunk rest) at 3. rewrite length_app. lia.
      * assert (drop (Z.to_nat (p + Z.of_nat (length (take chunk rest)))) content
                = drop (length (take chunk rest)) rest) as ->.
        { subst rest. rewrite drop_drop. f_equal. lia. }
        rewrite length_drop. lia.
Qed.

(** X13: with a streaming digest, [sha_file] computes the digest of the
    whole rest of the file, whatever the size of the chunks it reads: the
    primary digest is that of the accumulator fed with the rest at once, the
    secondary digest is that of the same accumulator fed with the primary
    digest in addition, and the file is left at its end. *)
Theorem sha_file_whole_rest (w : world D G) :
  DigestStreams D → 0 ≤ f_pos (w_file w) →
  let rest := drop (Z.to_nat (f_pos (w_file w))) (f_content (w_file w)) in
  let sha1 := sha_update (w_sha w) rest in
  let sha2 := sha_update (w_sha w) (rest ++ sha_digest sha1) in
  sha_file w
  = ((sha_digest sha1, sha_digest sha2),
     World sha2 (w_rng w)
       (File (f_content (w_file w)) (f_pos (w_file w) + Z.of_nat (length rest)))).
Proof.
  intros HD Hp. destruct w as [sha g [content p]]. simpl in *.
  unfold sha_file. cbn [w_file w_sha w_rng f_pos f_content].
  rewrite (sha_file_loop_rest HD) by (done || lia).
  destruct HD as [Happ _]. rewrite Happ. reflexivity.
Qed.

End full_digest.

Lemma transcript_streams : DigestStreams Standin.transcript.
Proof.
  split; simpl.
  - intros st a b. by rewrite app_assoc.
  - intros st. apply app_nil_r.
Qed.

Lemma sha_file_whole_rest_witness :
  let w := World (D:=Standin.transcript) (G:=Standin.lcg) [x01] 7 (File (Standin.ramp 20) 5) in
  let rest := drop (Z.to_nat 5) (Standin.ramp 20) in
  let sha1 := sha_update (w_sha w) rest in
  let sha2 := sha_update (w_sha w) (rest ++ sha_digest sha1) in
  sha_file w
  = ((sha_digest sha1, sha_digest sha2),
     World sha2 (w_rng w) (File (Standin.ramp 20) (5 + Z.of_nat (length rest)))).
Proof.
  apply (sha_file_whole_rest
           (World (D:=Standin.transcript) (G:=Standin.lcg) [x01] 7 (File (Standin.ramp 20) 5))
           transcript_streams).
  simpl. lia.
Defined.

(** ** Padding *)

(** X14: the padding rule by digest length: no byte of the secondary
    digest is appended when the length is 1 modulo 3, one byte otherwise;
    the encoder input then has a whole number of 12-bit groups exactly when
    the length is 2 modulo 3. *)
Theorem padding_bytes_by_length (hash hash2 : list byte) :
  hash2 ≠ [] →
  padding_bytes hash = (if Z.of_nat (length hash) mod 3 =? 1 then 0 else 1)
  ∧ Z.of_nat (length (encoder_input hash hash2))
    = Z.of_nat (length hash) + padding_bytes hash
  ∧ ((8 * Z.of_nat (length (encoder_input hash hash2))) mod 12 = 0
     ↔ Z.of_nat (length hash) mod 3 = 2).
Proof.
  intros Hne.
  assert (padding_bytes hash = (if Z.of_nat (length hash) mod 3 =? 1 then 0 else 1)) as Hpad.
  { unfold padding_bytes, word_bits, char_bits.
    set (L := Z.of_nat (length hash)).
    destruct (Z.eqb_spec (L mod 3) 1) as [H1|H1].
    - assert ((L * 8) mod 12 = 8) as -> by (Z.div_mod_to_equations; lia). reflexivity.
    - assert ((L * 8) mod 12 = 0 ∨ (L * 8) mod 12 = 4) as [-> | ->]
        by (Z.div_mod_to_equations; lia); reflexivity. }
  assert (Z.of_nat (length (encoder_input hash hash2))
          = Z.of_nat (length hash) + padding_bytes hash) as Hlen.
  { unfold encoder_input. rewrite length_app, Hpad.
    destruct (_ =? 1).
    - rewrite slice0_nonneg by lia. simpl. lia.
    - rewrite slice0_nonneg by lia. destruct hash2; [done|]. simpl. lia. }
  split; [done|]. split; [done|].
  rewrite Hlen, Hpad.
  destruct (Z.eqb_spec (Z.of_nat (length hash) mod 3) 1);
    split; intros; Z.div_mod_to_equations; lia.
Qed.

Lemma padding_bytes_by_length_witness :
  padding_bytes [x01; x02] = (if Z.of_nat (length [x01; x02]) mod 3 =? 1 then 0 else 1)
  ∧ Z.of_nat (length (encoder_input [x01; x02] [xff; xfe]))
    = Z.of_nat (length [x01; x02]) + padding_bytes [x01; x02]
  ∧ ((8 * Z.of_nat (length (encoder_input [x01; x02] [xff; xfe]))) mod 12 = 0
     ↔ Z.of_nat (length [x01; x02]) mod 3 = 2).
Proof.
  apply (padding_bytes_by_length [x01; x02] [xff; xfe]). discriminate.
Defined.

(** ** A vocabulary of one word *)

Lemma bits_value_pos bits : Forall is_bit bits → 1 ∈ bits → 1 ≤ bits_value bits.
Proof.
  induction bits as [|b bits IH] using rev_ind; intros Hbits Hin; [by inversion Hin|].
  apply Forall_app in Hbits as [Hbits Hb]. rewrite Forall_singleton in Hb.
  rewrite bits_value_snoc. pose proof (bits_value_nonneg bits Hbits).
  apply elem_of_app in Hin as [Hin|Hin].
  - specialize (IH Hbits Hin). unfold is_bit in Hb. lia.
  - apply list_elem_of_singleton in Hin. lia.
Qed.

Lemma byte_bits_top byte : 0 < byte → 1 ∈ byte_bits byte.
Proof.
  intros Hb. unfold byte_bits. apply list_elem_of_fmap.
  exists (Z.log2 byte). split.
  - rewrite Z.bit_log2 by done. reflexivity.
  - apply elem_of_seqZ. pose proof (Z.log2_nonneg byte). unfold bit_length.
    destruct (Z.eqb_spec byte 0); lia.
Qed.

Lemma bit_stream_nonempty_has_one s : bit_stream s ≠ [] → 1 ∈ bit_stream s.
Proof.
  induction s as [|c s IH]; [done|]. intros Hne.
  unfold bit_stream in *. rewrite fmap_cons. simpl. simpl in Hne.
  apply elem_of_app.
  destruct (decide (Py.ord c = 0)) as [Hz|Hz].
  - right. apply IH. rewrite Hz in Hne. exact Hne.
  - left. apply byte_bits_top. pose proof (ord_range c). lia.
Qed.

Lemma feed_bits_no_group {W} (words : list W) bits : ∀ st,
  Forall is_bit bits → 0 ≤ st_n st → 0 ≤ st_ix st →
  feed_bits words 0 bits st
  = Ok (EncState (st_out st) (fold_left (λ acc b, 2 * acc + b) bits (st_ix st))
          (st_n st + Z.of_nat (length bits))).
Proof.
  induction bits as [|b bits IH]; intros st Hbits Hn Hix.
  - simpl. rewrite Z.add_0_r. by destruct st.
  - apply Forall_cons in Hbits as [Hb Hbits]. simpl. unfold feed_bit.
    destruct (Z.eqb_spec (st_n st + 1) 0); [lia|]. simpl.
    rewrite lor_shiftl_is_bit by done.
    rewrite IH; simpl; [|done|lia|unfold is_bit in Hb; lia].
    do 2 f_equal. lia.
Qed.

(** X15: with a vocabulary of a single word ([nbits = 0]) no group is ever
    complete: the encoder returns no word when the input consists of zero
    bytes only, and raises [IndexError] on every other input. *)
Theorem key_to_english_one_word {W} (s : list byte) (w : W) :
  key_to_english s [w]
  = if decide (Forall (λ c, Py.ord c = 0) s) then Ok [] else Raise IndexError.
Proof.
  assert (Forall (λ c, Py.ord c = 0) s ↔ bit_stream s = []) as Hzero.
  { induction s as [|c s IH]; [done|].
    rewrite Forall_cons, IH. unfold bit_stream. rewrite fmap_cons. simpl.
    split.
    - intros [-> ->]. reflexivity.
    - intros [Hc Hs]%app_eq_nil. split; [|done].
      destruct (decide (Py.ord c = 0)) as [|Hne]; [done|].
      pose proof (byte_bits_top (Py.ord c)) as Htop. pose proof (ord_range c).
      rewrite Hc in Htop. specialize (Htop ltac:(lia)). by inversion Htop. }
  rewrite key_to_english_feed. simpl.
  rewrite feed_bits_no_group by (simpl; try lia; apply bit_stream_are_bits).
  simpl. unfold trailing_word. simpl.
  destruct (decide (Forall (λ c, Py.ord c = 0) s)) as [Hall|Hall].
  - apply Hzero in Hall. rewrite Hall. reflexivity.
  - assert (bit_stream s ≠ []) as Hne by (intros H; apply Hall, Hzero, H).
    pose proof (bits_value_pos _ (bit_stream_are_bits s)
                  (bit_stream_nonempty_has_one s Hne)) as Hpos.
    unfold bits_value in Hpos. rewrite Z.add_0_l.
    destruct (Z.ltb_spec 0 (Z.of_nat (length (bit_stream s)))) as [_|Hlen].
    2:{ destruct (bit_stream s); [done|simpl in Hlen; lia]. }
    unfold Py.index. simpl.
    set (ix := fold_left _ _ 0) in *.
    assert ((ix <? 0) = false) as -> by lia. cbv zeta.
    assert ((ix <? 0) = false) as -> by lia.
    destruct (Z.to_nat ix) as [|k] eqn:Hk; [lia|]. reflexivity.
Qed.

(** ** The command line *)

Lemma hash_words_total (wordlist : list string) hash hash2 n :
  (2 ≤ length wordlist)%nat → is_Ok (hash_words wordlist hash hash2 n).
Proof.
  intros HN. unfold hash_words.
  destruct (key_to_english_total (λ _, True) (encoder_input hash hash2) wordlist)
    as (words & -> & _); [done..|].
  simpl. destruct n; eexists; reflexivity.
Qed.

Section command_line_facts.
Context `{D : Digest} `{G : PRNG}.
Variable open_rb : string → option (list byte).
Variable wordlist : list string.
Hypothesis Hwordlist : (2 ≤ length wordlist)%nat.

(** Hashing a whole file that exists cannot fail. *)
Lemma wordhash_file_full_total (p : process D G) fname n
    min_blocks max_blocks block_size filesize :
  is_Some (open_rb fname) →
  is_Ok (wordhash_file open_rb wordlist p fname n None None
           min_blocks max_blocks block_size filesize).
Proof.
  intros [content Hopen]. unfold wordhash_file, wordhash. rewrite Hopen. simpl.
  destruct (sha_file _) as [[hash hash2] w]. simpl.
  destruct (hash_words_total wordlist hash hash2 n Hwordlist) as [words ->].
  simpl. eexists. reflexivity.
Qed.

(** A whole file hashed from a given accumulator, with a streaming
    digest. *)
Lemma wordhash_file_full (HD : DigestStreams D) (p : process D G) fname content n
    min_blocks max_blocks block_size filesize :
  open_rb fname = Some content →
  let hash := sha_digest (sha_update (p_sha p) content) in
  let sha2 := sha_update (p_sha p) (content ++ hash) in
  ∃ words,
    hash_words wordlist hash (sha_digest sha2) n = Ok words
    ∧ wordhash_file open_rb wordlist p fname n None None
        min_blocks max_blocks block_size filesize
      = Ok (Py.join_space words, Process sha2 (p_rng p)).
Proof.
  intros Hopen hash sha2. unfold wordhash_file, wordhash. rewrite Hopen. simpl.
  unfold sha_file. cbn [w_file w_sha w_rng f_pos f_content].
  rewrite (sha_file_loop_rest HD) by (simpl; lia).
  change (Z.to_nat 0) with 0%nat. rewrite drop_0.
  destruct HD as [Happ _]. rewrite Happ. fold hash. fold sha2.
  destruct (hash_words_total wordlist hash (sha_digest sha2) n Hwordlist) as [words Hw].
  exists words. split; [done|]. cbn [mbind result_bind]. rewrite Hw. reflexivity.
Qed.

(** X16: the [sha] object is shared by the files of one command line and
    never reset: with a streaming digest, the words printed for a file
    hashed after another are those of the digest of the first file's bytes,
    followed by the first file's digest, followed by the second file's
    bytes. *)
Theorem wordhash_file_after_another (p : process D G) (a b : string)
    (content_a content_b : list byte) n :
  DigestStreams D →
  open_rb a = Some content_a → open_rb b = Some content_b →
  let hash_a := sha_digest (sha_update (p_sha p) content_a) in
  let fed := content_a ++ hash_a ++ content_b in
  let hash_b := sha_digest (sha_update (p_sha p) fed) in
  let hash2_b := sha_digest (sha_update (p_sha p) (fed ++ hash_b)) in
  ∃ out_a p1 words_b p2,
    wordhash_file open_rb wordlist p a n None None None None None None = Ok (out_a, p1)
    ∧ hash_words wordlist hash_b hash2_b n = Ok words_b
    ∧ wordhash_file open_rb wordlist p1 b n None None None None None None
      = Ok (Py.join_space words_b, p2).
Proof.
  intros HD Ha Hb hash_a fed hash_b hash2_b.
  destruct (wordhash_file_full HD p a content_a n None None None None Ha)
    as (words_a & _ & Hrun_a).
  set (p1 := Process (sha_update (p_sha p) (content_a ++ hash_a)) (p_rng p)).
  destruct (wordhash_file_full HD p1 b content_b n None None None None Hb)
    as (words_b & Hw_b & Hrun_b).
  destruct HD as [Happ _].
  assert (sha_update (p_sha p1) content_b = sha_update (p_sha p) fed) as Hfed.
  { subst p1 fed. simpl. rewrite Happ, <- app_assoc. reflexivity. }
  rewrite Hfed in Hw_b, Hrun_b. fold hash_b in Hw_b, Hrun_b.
  assert (sha_update (p_sha p1) (content_b ++ hash_b)
          = sha_update (p_sha p) (fed ++ hash_b)) as Hfed2.
  { subst p1 fed. simpl. rewrite Happ, <- !app_assoc. reflexivity. }
  rewrite Hfed2 in Hw_b, Hrun_b.
  exists (Py.join_space words_a), p1, words_b. eexists.
  split; [exact Hrun_a|]. split; [exact Hw_b|]. exact Hrun_b.
Qed.

(** The loop over files that all exist, followed by more files. *)
Lemma main_loop_existing (a : args) n pre : ∀ (p : process D G) rest,
  a_blocks a = None → a_percent a = None →
  Forall (λ f, is_Some (open_rb f)) pre →
  ∃ lines p',
    length lines = length pre
    ∧ main_loop open_rb wordlist a n p (pre ++ rest)
      = (lines ++ (main_loop open_rb wordlist a n p' rest).1,
         (main_loop open_rb wordlist a n p' rest).2).
Proof.
  induction pre as [|f pre IH]; intros p rest Hblocks Hpercent Hall.
  - exists [], p. simpl. split; [done|]. by destruct (main_loop _ _ _ _ _ rest).
  - apply Forall_cons in Hall as [Hf Hall]. simpl.
    rewrite Hblocks, Hpercent.
    destruct (wordhash_file_full_total p f (Some n) (a_min_blocks a) (a_max_blocks a)
                (a_block_size a) None Hf) as [[line p1] ->].
    destruct (IH p1 rest Hblocks Hpercent Hall) as (lines & p' & Hlen & ->).
    exists (line :: lines), p'. simpl. split; [lia|reflexivity].
Qed.

(** X17: without sampling options, and with every file of the command
    line present, the script prints exactly one line per file and ends
    without an exception. *)
Theorem main_one_line_per_file (a : args) sha g argv0 realpath :
  a_blocks a = None → a_percent a = None → a_files a ≠ [] →
  Forall (λ f, is_Some (open_rb f)) (a_files a) →
  ∃ lines,
    main open_rb wordlist sha g argv0 realpath a = (lines, None)
    ∧ length lines = length (a_files a).
Proof.
  intros Hblocks Hpercent Hne Hall.
  destruct (main_loop_existing a (default 12 (a_nwords a)) (a_files a)
              (Process sha g) [] Hblocks Hpercent Hall) as (lines & p' & Hlen & Hrun).
  rewrite app_nil_r in Hrun. simpl in Hrun. rewrite app_nil_r in Hrun.
  exists lines. split; [|done].
  unfold main. destruct (a_files a) as [|f files]; [done|]. exact Hrun.
Qed.

(** X18: without sampling options, the script stops at the first file
    that cannot be opened: it has printed one line for each file before it,
    prints nothing for the files after it, and ends with [IOError]. *)
Theorem main_stops_at_missing_file (a : args) sha g argv0 realpath pre missing post :
  a_blocks a = None → a_percent a = None →
  a_files a = pre ++ missing :: post →
  Forall (λ f, is_Some (open_rb f)) pre → open_rb missing = None →
  ∃ lines,
    main open_rb wordlist sha g argv0 realpath a = (lines, Some IOError)
    ∧ length lines = length pre.
Proof.
  intros Hblocks Hpercent Hfiles Hall Hmissing.
  destruct (main_loop_existing a (default 12 (a_nwords a)) pre
              (Process sha g) (missing :: post) Hblocks Hpercent Hall)
    as (lines & p' & Hlen & Hrun).
  assert (main_loop open_rb wordlist a (default 12 (a_nwords a)) p' (missing :: post)
          = ([], Some IOError)) as Hstop.
  { simpl. unfold wordhash_file. rewrite Hmissing. reflexivity. }
  rewrite Hstop in Hrun. simpl in Hrun. rewrite app_nil_r in Hrun.
  exists lines. split; [|done].
  unfold main. rewrite Hfiles. rewrite <- Hrun.
  destruct pre; reflexivity.
Qed.

End command_line_facts.

Lemma numerals_two : (2 ≤ length Standin.numerals)%nat.
Proof. vm_compute. lia. Qed.

Lemma wordhash_file_after_another_witness :
  let p := Process (D:=Standin.transcript) (G:=Standin.lcg) [] 1 in
  let hash_a := sha_digest (sha_update (p_sha p) (Standin.ramp 3)) in
  let fed := Standin.ramp 3 ++ hash_a ++ Standin.ramp 5 in
  let hash_b := sha_digest (sha_update (p_sha p) fed) in
  let hash2_b := sha_digest (sha_update (p_sha p) (fed ++ hash_b)) in
  ∃ out_a p1 words_b p2,
    wordhash_file two_files Standin.numerals p "a" (Some 4) None None None None None None
      = Ok (out_a, p1)
    ∧ hash_words Standin.numerals hash_b hash2_b (Some 4) = Ok words_b
    ∧ wordhash_file two_files Standin.numerals p1 "b" (Some 4) None None None None None None
      = Ok (Py.join_space words_b, p2).
Proof.
  apply (wordhash_file_after_another two_files Standin.numerals numerals_two
           (Process (D:=Standin.transcript) (G:=Standin.lcg) [] 1)
           "a" "b" (Standin.ramp 3) (Standin.ramp 5) (Some 4) transcript_streams);
    reflexivity.
Defined.

Lemma main_one_line_per_file_witness :
  ∃ lines,
    main (D:=Standin.transcript) (G:=Standin.lcg) two_files Standin.numerals [] 1
      "english_hash.py" id (Args ["b"; "a"] None None None None None None)
    = (lines, None)
    ∧ length lines = length ["b"; "a"]%string.
Proof.
  apply (main_one_line_per_file (D:=Standin.transcript) (G:=Standin.lcg)
           two_files Standin.numerals numerals_two
           (Args ["b"; "a"] None None None None None None) [] 1 "english_hash.py" id).
  - reflexivity.
  - reflexivity.
  - discriminate.
  - repeat constructor; eexists; reflexivity.
Defined.

Lemma main_stops_at_missing_file_witness :
  ∃ lines,
    main (D:=Standin.transcript) (G:=Standin.lcg) two_files Standin.numerals [] 1
      "english_hash.py" id (Args ["a"; "c"; "b"] None None None None None None)
    = (lines, Some IOError)
    ∧ length lines = length ["a"]%string.
Proof.
  apply (main_stops_at_missing_file (D:=Standin.transcript) (G:=Standin.lcg)
           two_files Standin.numerals numerals_two
           (Args ["a"; "c"; "b"] None None None None None None) [] 1 "english_hash.py" id
           ["a"]%string "c"%string ["b"]%string).
  - reflexivity.
  - reflexivity.
  - reflexivity.
  - repeat constructor; eexists; reflexivity.
  - reflexivity.
Defined.

(** ** Offsets, continued *)

Section sampler_facts_3.
Context `{G : PRNG}.

(** X19: when the file holds at least one block and the block size is
    not negative, every sampled block lies inside the file: each offset [o]
    satisfies [0 ≤ o] and [o + block_size ≤ size]. *)
Theorem block_offsets_blocks_inside_file
    size block_size percent n_blocks min_blocks max_blocks g offs g' :
  RandintInRange G → 0 ≤ block_size ≤ size →
  block_offsets size block_size percent n_blocks min_blocks max_blocks g = Ok (offs, g') →
  Forall (λ o, 0 ≤ o ∧ o + block_size ≤ size) offs.
Proof.
  intros HG Hbs H.
  eapply Forall_impl; [eapply block_offsets_in_range; [done| |exact H]|]; [lia|].
  simpl. lia.
Qed.

(** X20: when the clamped block count is zero or negative, nothing is
    drawn: the generator is left as it was and the offsets are the first and
    the last block alone. *)
Theorem block_offsets_no_draw
    size block_size percent n_blocks min_blocks max_blocks g k :
  n_blocks_of size block_size percent n_blocks min_blocks max_blocks = Ok k →
  k ≤ 0 → block_size ≤ size →
  block_offsets size block_size percent n_blocks min_blocks max_blocks g
  = Ok ([0; size - block_size], g).
Proof.
  intros Hk Hneg Hle. unfold block_offsets. rewrite Hk. simpl.
  replace (Z.to_nat k) with 0%nat by lia. simpl.
  unfold Py.sorted. do 2 f_equal.
  unfold merge_sort. simpl.
  destruct (decide (0 ≤ size - block_size)); [reflexivity|lia].
Qed.

End sampler_facts_3.

Lemma block_offsets_blocks_inside_file_witness :
  Forall (λ o, 0 ≤ o ∧ o + 512 ≤ 10000) [0; 7; 4830; 4947; 9488].
Proof.
  apply (block_offsets_blocks_inside_file (G:=Standin.lcg)
           10000 512 None (Some 3) (Some 0) None 7
           [0; 7; 4830; 4947; 9488] 712265938 lcg_in_range).
  - lia.
  - reflexivity.
Defined.

Lemma block_offsets_no_draw_witness :
  block_offsets (G:=Standin.lcg) 10000 512 (Some (50 # 1)) None None (Some 0) 7
  = Ok ([0; 10000 - 512], 7).
Proof.
  apply (block_offsets_no_draw (G:=Standin.lcg)
           10000 512 (Some (50 # 1)) None None (Some 0) 7 0).
  - reflexivity.
  - lia.
  - lia.
Defined.

(** ** Sampling from the command line *)

(** X21: with a block count on the command line, a first file shorter
    than the block size (512 bytes unless given) makes the script end with
    [IOError] before it prints anything. *)
Theorem main_sampling_small_file_fails `{D : Digest} `{G : PRNG}
    (open_rb : string → option (list byte)) (wordlist : list string)
    (a : args) sha g argv0 realpath k file files content :
  a_blocks a = Some k → a_files a = file :: files →
  open_rb file = Some content →
  Z.of_nat (length content) < default 512 (a_block_size a) →
  main open_rb wordlist sha g argv0 realpath a = ([], Some IOError).
Proof.
  intros Hblocks Hfiles Hopen Hsmall.
  unfold main. rewrite Hfiles. cbn [main_loop].
  unfold wordhash_file, wordhash. rewrite Hopen, Hblocks.
  cbn [p_sha p_rng]. cbv iota.
  set (w := World sha g (File content 0)).
  destruct (block_offsets_count_total (G:=G) (fstat_size (w_file w))
              (default 512 (a_block_size a)) (a_percent a) k
              (a_min_blocks a) (a_max_blocks a) (w_rng w)) as [[offs g1] Hoffs].
  rewrite (sha_file_random_negative_seek w (a_percent a) (Some k) (a_min_blocks a)
             (a_max_blocks a) (a_block_size a) None offs g1 Hoffs Hsmall).
  reflexivity.
Qed.

Lemma main_sampling_small_file_fails_witness :
  main (D:=Standin.transcript) (G:=Standin.lcg) two_files Standin.numerals [] 1
    "english_hash.py" id (Args ["a"; "b"] None None (Some 10) None None None)
  = ([], Some IOError).
Proof.
  apply (main_sampling_small_file_fails (D:=Standin.transcript) (G:=Standin.lcg)
           two_files Standin.numerals
           (Args ["a"; "b"] None None (Some 10) None None None) [] 1
           "english_hash.py" id 10 "a"%string ["b"]%string (Standin.ramp 3)).
  - reflexivity.
  - reflexivity.
  - reflexivity.
  - simpl. lia.
Defined.
